(** * XX-interaction circuit synthesis (monodromy/xx_decompose/circuits.py)

    A shallow embedding of the backsolving and assembly code of
    [circuits.py], and the properties of it that the specification states.

    Numbers.  The Python code computes with IEEE doubles.  A double that is
    not NaN is modelled by the real number it denotes, and a value that may be
    NaN by [fl = option R] with [None] for NaN; rounding and signed zeros are
    not modelled.  Alcove coordinates are exact fractions ([Q]), as they are
    in the polytope data the code reads.  The table phases are the units
    1, -1, 1j, -1j, modelled as Gaussian integers. *)

From Stdlib Require Import Reals Lra Lia ZArith QArith Qreals List String.
From stdpp Require Import base option list gmap strings.
Import ListNotations.

#[local] Open Scope R_scope.

(** ** Floating point values *)

(** [None] is NaN. *)
Definition fl : Type := option R.

#[global] Instance Rlt_decision (a b : R) : Decision (a < b) := Rlt_dec a b.
#[global] Instance Rle_decision (a b : R) : Decision (a <= b) := Rle_dec a b.
#[global] Instance Rgt_decision (a b : R) : Decision (a > b) := Rgt_dec a b.
#[global] Instance Req_decision : EqDecision R := Req_dec_T.

(** [np.mod(x, m)]: the remainder has the sign of the divisor; NaN when the
    divisor is zero. *)
Definition np_mod (x m : R) : fl :=
  if decide (m = 0) then None else Some (x - IZR (Zfloor (x / m)) * m).

(** [numerator / denominator] as consumed by [np.arccos]: a zero denominator
    gives an infinity or NaN, which [np.arccos] turns into NaN. *)
Definition np_divide (n d : R) : fl :=
  if decide (d = 0) then None else Some (n / d).

(** [np.arccos]: NaN outside [-1, 1]. *)
Definition np_arccos (x : fl) : fl :=
  match x with
  | Some x => if decide (-1 <= x <= 1) then Some (acos x) else None
  | None => None
  end.

(** [np.arctan2 y x], for [np.angle] and the imaginary part of [np.log]. *)
Definition np_arctan2 (y x : R) : R :=
  if decide (0 < x) then atan (y / x)
  else if decide (x < 0) then
    (if decide (0 <= y) then atan (y / x) + PI else atan (y / x) - PI)
  else if decide (0 < y) then PI / 2
  else if decide (y < 0) then - (PI / 2)
  else 0.

(** ** Canonical geometry utilities *)

Definition nearp_default_modulus : R := PI / 2.
Definition nearp_default_epsilon : R := 1e-2.

(** [nearp]: a NaN remainder makes both comparisons false. *)
Definition nearp (x y modulus epsilon : R) : bool :=
  match np_mod (Rabs (x - y)) modulus with
  | Some r =>
      bool_decide (Rabs r < epsilon) || bool_decide (Rabs (r - modulus) < epsilon)
  | None => false
  end.

Definition l1_distance (x y : list R) : R :=
  foldr Rplus 0 (map (fun p => Rabs (p.1 - p.2)) (zip x y)).

Definition safe_arccos (numerator denominator : R) : fl :=
  let threshold := 0.005 in
  if bool_decide (Rabs numerator > Rabs denominator)
     && bool_decide (Rabs (numerator - denominator) < threshold)
  then Some 0
  else if bool_decide (Rabs numerator > Rabs denominator)
          && bool_decide (Rabs (numerator + denominator) < threshold)
  then Some PI
  else np_arccos (np_divide numerator denominator).

(** ** Complex numbers and small matrices *)

Definition C : Type := R * R.

Definition Cadd (a b : C) : C := (a.1 + b.1, a.2 + b.2).
Definition Cmul (a b : C) : C := (a.1 * b.1 - a.2 * b.2, a.1 * b.2 + a.2 * b.1).
Definition np_angle (z : C) : R := np_arctan2 z.2 z.1.

(** A matrix is its entry function; the code only uses 2x2 and 4x4 ones. *)
Definition matrix : Type := nat -> nat -> C.

(** [np.dot] of two 4x4 matrices. *)
Definition np_dot (A B : matrix) : matrix :=
  fun i j =>
    Cadd (Cadd (Cadd (Cmul (A i 0%nat) (B 0%nat j)) (Cmul (A i 1%nat) (B 1%nat j)))
               (Cmul (A i 2%nat) (B 2%nat j)))
         (Cmul (A i 3%nat) (B 3%nat j)).

(** [np.kron] of two 2x2 matrices. *)
Definition np_kron (A B : matrix) : matrix :=
  fun i j => Cmul (A (i / 2)%nat (j / 2)%nat) (B (i mod 2)%nat (j mod 2)%nat).

(** ** Trigonometric backsolver *)

Section Backsolver.

(** [canonical_matrix] and [rz_matrix] live in [static/matrices.py];
    [canonical_matrix(a, b)] and [canonical_matrix(a)] leave the remaining
    arguments at their default 0. *)
Variable canonical_matrix : R -> R -> R -> matrix.
Variable rz_matrix : R -> matrix.

Definition fl_scale (k : R) (x : fl) : fl := (fun v => k * v) <$> x.
Definition fl_add (x y : fl) : fl := a ← x; b ← y; Some (a + b).
Definition fl_sub (x y : fl) : fl := a ← x; b ← y; Some (a - b).

(** The 6-tuple [(r, s, u, v, x, y)].  A NaN can only come out of
    [safe_arccos]; it then reaches [u] and [v], every entry of
    [kron(rz(u), rz(v))], and through the matrix products the four other
    angles. *)
Definition decompose_xxyy_into_xxyy_xx (a_target b_target a1 b1 a2 : R)
  : fl * fl * fl * fl * fl * fl :=
  let cplus := cos (a1 + b1) in
  let cminus := cos (a1 - b1) in
  let splus := sin (a1 + b1) in
  let sminus := sin (a1 - b1) in
  let ca := cos a2 in
  let sa := sin a2 in
  let uplusv := fl_scale (1 / 2) (safe_arccos
    (cminus ^ 2 * ca ^ 2 + sminus ^ 2 * sa ^ 2 - cos (a_target - b_target) ^ 2)
    (2 * cminus * ca * sminus * sa)) in
  let uminusv := fl_scale (1 / 2) (safe_arccos
    (cplus ^ 2 * ca ^ 2 + splus ^ 2 * sa ^ 2 - cos (a_target + b_target) ^ 2)
    (2 * cplus * ca * splus * sa)) in
  let u := fl_scale (1 / 2) (fl_add uplusv uminusv) in
  let v := fl_scale (1 / 2) (fl_sub uplusv uminusv) in
  match u, v with
  | Some u, Some v =>
      let middle_matrix :=
        np_dot (np_dot (canonical_matrix a1 b1 0)
                       (np_kron (rz_matrix u) (rz_matrix v)))
               (canonical_matrix a2 0 0) in
      let p0 := np_angle (middle_matrix 0 0)%nat in
      let p1 := np_angle (middle_matrix 1 1)%nat in
      let p2 := np_angle (middle_matrix 1 2)%nat + PI / 2 in
      let p3 := np_angle (middle_matrix 0 3)%nat + PI / 2 in
      let r := 1 / 4 * p0 + 1 / 4 * p1 + 1 / 4 * p2 + 1 / 4 * p3 in
      let s := 1 / 4 * p0 + - 1 / 4 * p1 + - 1 / 4 * p2 + 1 / 4 * p3 in
      let x := 1 / 4 * p0 + 1 / 4 * p1 + - 1 / 4 * p2 + - 1 / 4 * p3 in
      let y := 1 / 4 * p0 + - 1 / 4 * p1 + 1 / 4 * p2 + - 1 / 4 * p3 in
      let generated_matrix :=
        np_dot (np_dot (np_kron (rz_matrix r) (rz_matrix s)) middle_matrix)
               (np_kron (rz_matrix x) (rz_matrix y)) in
      let g := np_angle (generated_matrix 3 0)%nat in
      if bool_decide (Rabs (g - PI / 2) < 0.01) && bool_decide (a_target > b_target)
         || bool_decide (Rabs (g + PI / 2) < 0.01) && bool_decide (a_target < b_target)
      then (Some (r - PI / 4), Some (s - PI / 4), Some u, Some v,
            Some (x + PI / 4), Some (y + PI / 4))
      else (Some r, Some s, Some u, Some v, Some x, Some y)
  | _, _ => (None, None, u, v, None, None)
  end.

End Backsolver.

(** ** Circuits

    The part of Qiskit's [QuantumCircuit] that the code uses: an ordered list
    of gate applications on the two wires [q[0]], [q[1]] and a global phase
    angle. *)

Inductive Gate : Type :=
| RXGate (theta : R)
| RYGate (theta : R)
| RZGate (theta : R)
| OpaqueGate (name : string) (params : list R) (dagger : bool).

(** A gate and the wires it acts on. *)
Definition Instruction : Type := Gate * list nat.

Record QuantumCircuit : Type := mkCircuit {
  data : list Instruction;
  global_phase : R
}.

(** [qiskit.QuantumCircuit(q)] *)
Definition empty_circuit : QuantumCircuit := mkCircuit [] 0.

(** [qc.append(gate, [q[w]])], and so [qc.rx], [qc.ry], [qc.rz]. *)
Definition append (qc : QuantumCircuit) (g : Gate) (wires : list nat) : QuantumCircuit :=
  mkCircuit (data qc ++ [(g, wires)]) (global_phase qc).

(** [qc.compose(other, inplace=True)] and [qc += other]: the instructions of
    [other] follow those of [qc], the phases add. *)
Definition compose (qc other : QuantumCircuit) : QuantumCircuit :=
  mkCircuit (data qc ++ data other) (global_phase qc + global_phase other).

Definition gate_inverse (g : Gate) : Gate :=
  match g with
  | RXGate theta => RXGate (- theta)
  | RYGate theta => RYGate (- theta)
  | RZGate theta => RZGate (- theta)
  | OpaqueGate name params dagger => OpaqueGate name params (negb dagger)
  end.

Definition instruction_inverse (i : Instruction) : Instruction :=
  (gate_inverse i.1, i.2).

(** [qc.inverse()]: the inverted instructions in reverse order. *)
Definition inverse (qc : QuantumCircuit) : QuantumCircuit :=
  mkCircuit (rev (map instruction_inverse (data qc))) (- global_phase qc).

(** ** Symmetry group tables *)

(** The gate classes [RXGate], [RYGate], [RZGate] stored in the tables. *)
Inductive GateClass : Type := RX | RY | RZ.

Definition instantiate (g : GateClass) (theta : R) : Gate :=
  match g with
  | RX => RXGate theta
  | RY => RYGate theta
  | RZ => RZGate theta
  end.

(** A table phase [re + im j]. *)
Definition phase : Type := Z * Z.

Definition phase_mul (a b : phase) : phase :=
  (a.1 * b.1 - a.2 * b.2, a.1 * b.2 + a.2 * b.1)%Z.

Definition phase_one : phase := (1, 0)%Z.

(** [np.log(z).imag] *)
Definition np_log_imag (z : phase) : R := np_arctan2 (IZR z.2) (IZR z.1).

(** The squared magnitude [re^2 + im^2]. *)
Definition phase_norm (z : phase) : Z := (z.1 * z.1 + z.2 * z.2)%Z.

(** Canonical coordinates [a XX + b YY + c ZZ]. *)
Definition coord : Type := R * R * R.

Definition coord_get (c : coord) (i : nat) : R :=
  match i with
  | O => c.1.1
  | S O => c.1.2
  | _ => c.2
  end.

(** The keys of [reflection_options], in the order the dictionary declares
    (and so iterates) them. *)
Inductive reflection_name : Type :=
| no_reflection | reflect_XX_YY | reflect_XX_ZZ | reflect_YY_ZZ.

Definition reflection_names : list reflection_name :=
  [no_reflection; reflect_XX_YY; reflect_XX_ZZ; reflect_YY_ZZ].

Definition reflection_options (name : reflection_name)
  : (Z * Z * Z) * phase * list GateClass :=
  match name with
  | no_reflection => ((1, 1, 1), (1, 0), [])
  | reflect_XX_YY => ((-1, -1, 1), (1, 0), [RZ])
  | reflect_XX_ZZ => ((-1, 1, -1), (1, 0), [RY])
  | reflect_YY_ZZ => ((1, -1, -1), (-1, 0), [RX])
  end%Z.

(** The keys of [shift_options], in declaration order. *)
Inductive shift_name : Type :=
| no_shift | Z_shift | Y_shift | YZ_shift | X_shift | XZ_shift | XY_shift | XYZ_shift.

Definition shift_names : list shift_name :=
  [no_shift; Z_shift; Y_shift; YZ_shift; X_shift; XZ_shift; XY_shift; XYZ_shift].

Definition shift_options (name : shift_name)
  : (Z * Z * Z) * phase * list GateClass :=
  match name with
  | no_shift => ((0, 0, 0), (1, 0), [])
  | Z_shift => ((0, 0, 1), (0, 1), [RZ])
  | Y_shift => ((0, 1, 0), (0, -1), [RY])
  | YZ_shift => ((0, 1, 1), (-1, 0), [RY; RZ])
  | X_shift => ((1, 0, 0), (0, -1), [RX])
  | XZ_shift => ((1, 0, 1), (1, 0), [RX; RZ])
  | XY_shift => ((1, 1, 0), (-1, 0), [RX; RY])
  | XYZ_shift => ((1, 1, 1), (0, -1), [RX; RY; RZ])
  end%Z.

Definition apply_reflection (name : reflection_name) (coordinate : coord)
  : coord * QuantumCircuit * phase :=
  let '(reflection_scalars, reflection_phase_shift, source_reflection_gates) :=
    reflection_options name in
  let '(s0, s1, s2) := reflection_scalars in
  let '(c0, c1, c2) := coordinate in
  let reflected_coord := (IZR s0 * c0, IZR s1 * c1, IZR s2 * c2) in
  let source_reflection :=
    fold_left (fun qc g => append qc (instantiate g PI) [0%nat])
              source_reflection_gates empty_circuit in
  (reflected_coord, source_reflection, reflection_phase_shift).

Definition apply_shift (name : shift_name) (coordinate : coord)
  : coord * QuantumCircuit * phase :=
  let '(shift_scalars, shift_phase_shift, source_shift_gates) :=
    shift_options name in
  let '(s0, s1, s2) := shift_scalars in
  let '(c0, c1, c2) := coordinate in
  let shifted_coord :=
    (PI / 2 * IZR s0 + c0, PI / 2 * IZR s1 + c1, PI / 2 * IZR s2 + c2) in
  let source_shift :=
    fold_left (fun qc g => append (append qc (instantiate g PI) [0%nat])
                                  (instantiate g PI) [1%nat])
              source_shift_gates empty_circuit in
  (shifted_coord, source_shift, shift_phase_shift).

(** The indices are Python integers; any pair the chain of comparisons does
    not name falls through and leaves the circuit empty. *)
Definition canonical_rotation_circuit (first_index second_index : Z) : QuantumCircuit :=
  let conj := empty_circuit in
  if decide ((0, 1)%Z = (first_index, second_index)) then conj
  else if decide ((0, 2)%Z = (first_index, second_index)) then
    append (append conj (RXGate (- PI / 2)) [0%nat]) (RXGate (PI / 2)) [1%nat]
  else if decide ((1, 0)%Z = (first_index, second_index)) then
    append (append conj (RZGate (- PI / 2)) [0%nat]) (RZGate (- PI / 2)) [1%nat]
  else if decide ((1, 2)%Z = (first_index, second_index)) then
    append (append (append (append conj
      (RZGate (PI / 2)) [0%nat]) (RZGate (PI / 2)) [1%nat])
      (RYGate (PI / 2)) [0%nat]) (RYGate (- PI / 2)) [1%nat]
  else if decide ((2, 0)%Z = (first_index, second_index)) then
    append (append (append (append conj
      (RZGate (PI / 2)) [0%nat]) (RZGate (PI / 2)) [1%nat])
      (RXGate (PI / 2)) [0%nat]) (RXGate (- PI / 2)) [1%nat]
  else if decide ((2, 1)%Z = (first_index, second_index)) then
    append (append conj (RYGate (PI / 2)) [0%nat]) (RYGate (- PI / 2)) [1%nat]
  else conj.

(** ** Exceptions *)

Inductive exn : Type :=
| AssertionError | StopIteration | IndexError | KeyError | ValueError
| NoBacksolution.

Inductive result (A : Type) : Type :=
| Return (a : A)
| Raise (e : exn).
Arguments Return {A} a.
Arguments Raise {A} e.

#[global] Instance result_ret : MRet result := fun A a => Return a.
#[global] Instance result_bind : MBind result := fun A B f m =>
  match m with
  | Return a => f a
  | Raise e => Raise e
  end.

(** [l[i]] *)
Definition index {A} (l : list A) (i : nat) : result A :=
  match l !! i with
  | Some a => Return a
  | None => Raise IndexError
  end.

(** [d[k]] *)
Definition getitem {A} (d : gmap string A) (k : string) : result A :=
  match d !! k with
  | Some a => Return a
  | None => Raise KeyError
  end.

(** ** The catalog of native interactions *)

Definition alcove : Type := Q * Q * Q.

(** A hop [(source_alcove_coord, operation, target_alcove_coord)]. *)
Definition hop : Type := alcove * string * alcove.

(** Each equality is a row [[c; a0; a1; a2]] standing for
    [c + a0 x0 + a1 x1 + a2 x2 = 0]. *)
Record ConvexPolytope : Type := mkConvexPolytope {
  equalities : list (list Q)
}.

Record OperationPolytope : Type := mkOperationPolytope {
  convex_subpolytopes : list ConvexPolytope;
  cost : Q;
  operations : list string;
  canonical_circuit : QuantumCircuit
}.

(** [next(-eq[0] / eq[1+j] for eq in equalities if eq[1+j] != 0)] *)
Fixpoint next_solved_coordinate (j : nat) (eqs : list (list Q)) : result Q :=
  match eqs with
  | [] => Raise StopIteration
  | eq :: rest =>
      a ← index eq (1 + j);
      if Qeq_bool a 0 then next_solved_coordinate j rest
      else c ← index eq 0; Return (- c / a)%Q
  end.

(** The six backsolved angles, the symmetry chosen and its fragments: what the
    loop variables hold when the search breaks out. *)
Record Solution : Type := mkSolution {
  source_reflection_name : reflection_name;
  source_shift_name : shift_name;
  source_reflection : QuantumCircuit;
  reflection_phase_shift : phase;
  source_shift : QuantumCircuit;
  shift_phase_shift : phase;
  permute_source_for_overlap : QuantumCircuit;
  permute_target_for_overlap : QuantumCircuit;
  angle_r : R; angle_s : R; angle_u : R; angle_v : R; angle_x : R; angle_y : R
}.

(** The circuit built so far and the running multiplicative phase. *)
Record RunningState : Type := mkState {
  st_circuit : QuantumCircuit;
  st_phase : phase
}.

Definition axis_pairs : list (nat * nat) :=
  [(0, 0); (0, 1); (0, 2);
   (1, 0); (1, 1); (1, 2);
   (2, 0); (2, 1); (2, 2)]%nat.

(** The scan for a shared coordinate, with its [break]. *)
Fixpoint find_overlap (pairs : list (nat * nat)) (shifted_source_coord target_canonical_coord : coord)
  : option (nat * nat) :=
  match pairs with
  | [] => None
  | (i, j) :: rest =>
      if nearp (coord_get shifted_source_coord i) (coord_get target_canonical_coord j)
               PI nearp_default_epsilon
      then Some (i, j)
      else find_overlap rest shifted_source_coord target_canonical_coord
  end.

(** [first, second = [x for x in [0, 1, 2] if x != shared]] *)
Definition other_axes (shared : nat) : result (nat * nat) :=
  match filter (fun x => x <> shared) [0; 1; 2]%nat with
  | [first; second] => Return (first, second)
  | _ => Raise ValueError
  end.

(** The three stages that turn the circuit so far into the next one. *)
Definition assemble_hop (qc native : QuantumCircuit) (sol : Solution) : QuantumCircuit :=
  let output_circuit := empty_circuit in
  let output_circuit := compose output_circuit (permute_source_for_overlap sol) in
  let output_circuit := compose output_circuit (source_reflection sol) in
  let output_circuit := compose output_circuit qc in
  let output_circuit := compose output_circuit (inverse (source_reflection sol)) in
  let output_circuit := compose output_circuit (source_shift sol) in
  let output_circuit := compose output_circuit (inverse (permute_source_for_overlap sol)) in
  let qc := output_circuit in
  let output_circuit := empty_circuit in
  let output_circuit := append output_circuit (RZGate (2 * angle_x sol)) [0%nat] in
  let output_circuit := append output_circuit (RZGate (2 * angle_y sol)) [1%nat] in
  let output_circuit := compose output_circuit native in
  let output_circuit := append output_circuit (RZGate (2 * angle_u sol)) [0%nat] in
  let output_circuit := append output_circuit (RZGate (2 * angle_v sol)) [1%nat] in
  let output_circuit := compose output_circuit qc in
  let output_circuit := append output_circuit (RZGate (2 * angle_r sol)) [0%nat] in
  let output_circuit := append output_circuit (RZGate (2 * angle_s sol)) [1%nat] in
  let qc := output_circuit in
  let output_circuit := empty_circuit in
  let output_circuit := compose output_circuit (inverse (permute_target_for_overlap sol)) in
  let output_circuit := compose output_circuit qc in
  let output_circuit := compose output_circuit (permute_target_for_overlap sol) in
  output_circuit.

(** ** The specification's own wording, for comparison with the code *)

(** The [Rz] pair [[Rz(2a) on wire0, Rz(2b) on wire1]]. *)
Definition rz_pair (a b : R) : list Instruction :=
  [(RZGate (2 * a), [0%nat]); (RZGate (2 * b), [1%nat])].

(** The fragments of the nesting of section 4.5, in the order the
    specification writes them, inside the target conjugation. *)
Definition spec_hop_fragments (previousCircuit native : QuantumCircuit) (sol : Solution)
  : list (list Instruction) :=
  [ data (inverse (permute_target_for_overlap sol));
    data (inverse (permute_source_for_overlap sol));
    data (inverse (source_shift sol));
    data (inverse (source_reflection sol));
    rz_pair (angle_x sol) (angle_y sol);
    data native;
    rz_pair (angle_u sol) (angle_v sol);
    data previousCircuit;
    rz_pair (angle_r sol) (angle_s sol);
    data (source_reflection sol);
    data (source_shift sol);
    data (permute_source_for_overlap sol);
    data (permute_target_for_overlap sol) ].

(** The nesting read in the order written. *)
Definition spec_hop_nesting (previousCircuit native : QuantumCircuit) (sol : Solution)
  : list Instruction :=
  concat (spec_hop_fragments previousCircuit native sol).

(** The nesting read as a product of operators, the rightmost applied
    first. *)
Definition spec_hop_nesting_as_product (previousCircuit native : QuantumCircuit)
    (sol : Solution) : list Instruction :=
  concat (rev (spec_hop_fragments previousCircuit native sol)).

(** The 4 x 8 combinations in table-declared order. *)
Definition all_combinations : list (reflection_name * shift_name) :=
  list_prod reflection_names shift_names.

(** "First success terminates the search": the first element on which [f]
    neither skips nor raises decides. *)
Fixpoint first_success {A B} (f : A -> result (option B)) (l : list A)
  : result (option B) :=
  match l with
  | [] => Return None
  | a :: rest =>
      found ← f a;
      match found with
      | Some b => Return (Some b)
      | None => first_success f rest
      end
  end.

(** "x = y (mod modulus) within tolerance": some multiple of the modulus lies
    within the tolerance of the difference. *)
Definition congruent_within (x y modulus tolerance : R) : Prop :=
  exists k : Z, Rabs (x - y - IZR k * modulus) < tolerance.

(** ** Concrete inputs *)

(** An instance of the transform of [coordinates.py]: half sums of the alcove
    coordinates, scaled by pi. *)
Definition example_transform (x y z : Q) : coord :=
  (Q2R ((x + y) / 2) * PI, Q2R ((z + x) / 2) * PI, Q2R ((y + z) / 2) * PI).

Definition example_epsilon : R := 1e-6.

(** An instance of [canonical_matrix]: the matrix of
    exp(i (a XX + b YY + c ZZ)). *)
Definition example_canonical_matrix (a b c : R) : matrix :=
  fun i j =>
    match i, j with
    | 0%nat, 0%nat | 3%nat, 3%nat => Cmul (cos c, sin c) (cos (a - b), 0)
    | 0%nat, 3%nat | 3%nat, 0%nat => Cmul (cos c, sin c) (0, sin (a - b))
    | 1%nat, 1%nat | 2%nat, 2%nat => Cmul (cos c, - sin c) (cos (a + b), 0)
    | 1%nat, 2%nat | 2%nat, 1%nat => Cmul (cos c, - sin c) (0, sin (a + b))
    | _, _ => (0, 0)
    end.

(** An instance of [rz_matrix]: diag(exp(-i theta), exp(i theta)). *)
Definition example_rz_matrix (theta : R) : matrix :=
  fun i j =>
    match i, j with
    | 0%nat, 0%nat => (cos theta, - sin theta)
    | 1%nat, 1%nat => (cos theta, sin theta)
    | _, _ => (0, 0)
    end.

(** A point polytope [x0 = x, x1 = y, x2 = z]. *)
Definition exactly (x y z : Q) : ConvexPolytope :=
  mkConvexPolytope [[- x; 1; 0; 0]; [- y; 0; 1; 0]; [- z; 0; 0; 1]]%Q.

Definition example_native_circuit (name : string) : QuantumCircuit :=
  mkCircuit [(OpaqueGate name [] false, [0; 1]%nat)] 0.

Definition example_operation (name : string) (x y z : Q) : OperationPolytope :=
  mkOperationPolytope [exactly x y z] (1 # 2) [name] (example_native_circuit name).

(** The CX point of the alcove, an XX interaction. *)
Definition example_catalog : list OperationPolytope :=
  [example_operation "CX" (1 # 4) (1 # 4) (- 1 # 4)].

(** An entry that is not of XX type. *)
Definition example_bad_operation : OperationPolytope :=
  example_operation "bad" (1 # 4) (1 # 4) (1 # 4).

(** The bad entry, then an XX entry under the same name. *)
Definition example_shadowed_catalog : list OperationPolytope :=
  [example_operation "CX" (1 # 4) (1 # 4) (1 # 4);
   example_operation "CX" (1 # 4) (1 # 4) (- 1 # 4)].

(** A second native interaction, further out on the XX axis. *)
Definition example_wide_catalog : list OperationPolytope :=
  [example_operation "wide" (3 # 10) (3 # 10) (- 3 # 10)].

(** One-hop paths from the origin to the native interaction's own point. *)
Definition example_first_hop : hop := ((0, 0, 0)%Q, "CX", (1 # 4, 1 # 4, - 1 # 4)%Q).
Definition example_wide_first_hop : hop :=
  ((0, 0, 0)%Q, "wide", (3 # 10, 3 # 10, - 3 # 10)%Q).

(** A second hop from the CX point that the first combination solves. *)
Definition example_second_hop : hop :=
  ((1 # 4, 1 # 4, - 1 # 4)%Q, "CX", (1 # 2, 1 # 4, - 1 # 4)%Q).

(** A hop from the CX point whose target shares no coordinate with any image
    of its source. *)
Definition example_unrealizable_hop : hop :=
  ((1 # 4, 1 # 4, - 1 # 4)%Q, "CX", (1 # 8, 1 # 8, 1 # 8)%Q).

(** A hop from the CX point that the identity symmetry cannot solve (no
    coordinate of the target meets one of the source) and "Z shift" does. *)
Definition example_shifted_hop : hop :=
  ((1 # 4, 1 # 4, - 1 # 4)%Q, "CX", (- 1 # 4, 1 # 2, 1 # 2)%Q).

(** A native circuit that carries a global phase of its own. *)
Definition example_phased_circuit (name : string) (phase : R) : QuantumCircuit :=
  mkCircuit [(OpaqueGate name [] false, [0; 1]%nat)] phase.

Definition example_phased_operation (name : string) (x y z : Q) (phase : R)
  : OperationPolytope :=
  mkOperationPolytope [exactly x y z] (1 # 2) [name] (example_phased_circuit name phase).

(** The CX point and the wider point, each with a native circuit of global
    phase pi/2. *)
Definition example_phased_catalog : list OperationPolytope :=
  [example_phased_operation "CX" (1 # 4) (1 # 4) (- 1 # 4) (PI / 2)].

Definition example_phased_wide_catalog : list OperationPolytope :=
  [example_phased_operation "wide" (3 # 10) (3 # 10) (- 3 # 10) (PI / 2)].

(** A first hop that names CX, whose own point has parameter 1/4, and ends
    further out, at parameter 3/10. *)
Definition example_mismatched_first_hop : hop :=
  ((0, 0, 0)%Q, "CX", (3 # 10, 3 # 10, - 3 # 10)%Q).

(** ** Synthesis *)

Section Synthesis.

(** From [coordinates.py], [utilities.py] and [static/matrices.py]. *)
Variable alcove_to_positive_canonical_coordinate : Q -> Q -> Q -> coord.
Variable epsilon : R.
Variable canonical_matrix : R -> R -> R -> matrix.
Variable rz_matrix : R -> matrix.

(** The value the dictionary comprehension computes for one operation. *)
Definition operation_coordinate (operation : OperationPolytope) : result coord :=
  P ← index (convex_subpolytopes operation) 0;
  x ← next_solved_coordinate 0 (equalities P);
  P ← index (convex_subpolytopes operation) 0;
  y ← next_solved_coordinate 1 (equalities P);
  P ← index (convex_subpolytopes operation) 0;
  z ← next_solved_coordinate 2 (equalities P);
  Return (alcove_to_positive_canonical_coordinate x y z).

(** The comprehension [{operation.operations[0]: ... for operation in
    operations}]: a later operation replaces an earlier one of the same
    name. *)
Fixpoint build_coordinate_table (ops : list OperationPolytope)
    (table : gmap string coord) : result (gmap string coord) :=
  match ops with
  | [] => Return table
  | operation :: rest =>
      name ← index (operations operation) 0;
      c ← operation_coordinate operation;
      build_coordinate_table rest (<[name := c]> table)
  end.

Fixpoint build_gate_table (ops : list OperationPolytope)
    (table : gmap string QuantumCircuit) : result (gmap string QuantumCircuit) :=
  match ops with
  | [] => Return table
  | operation :: rest =>
      name ← index (operations operation) 0;
      build_gate_table rest (<[name := canonical_circuit operation]> table)
  end.

Definition xx_type (c : coord) : Prop :=
  Rabs (coord_get c 1) < epsilon /\ Rabs (coord_get c 2) < epsilon.

(** [all([... for c in canonical_coordinate_table.values()])] *)
Definition all_xx_type (table : gmap string coord) : bool :=
  bool_decide (map_Forall (fun _ c => xx_type c) table).

(** The first hop. *)
Definition first_hop (canonical_gate_table : gmap string QuantumCircuit) (h : hop)
  : result RunningState :=
  let '(_, operation, target_alcove_coord) := h in
  let qc := empty_circuit in
  let global_phase := phase_one in
  if Qle_bool target_alcove_coord.1.1 (1 # 4) then
    native ← getitem canonical_gate_table operation;
    Return (mkState (compose qc native) global_phase)
  else
    let '(_, source_reflection, reflection_phase_shift) :=
      apply_reflection reflect_XX_YY (0, 0, 0) in
    let '(_, source_shift, shift_phase_shift) := apply_shift X_shift (0, 0, 0) in
    let qc := compose qc source_reflection in
    native ← getitem canonical_gate_table operation;
    let qc := compose qc native in
    let qc := compose qc (inverse source_reflection) in
    let qc := compose qc source_shift in
    Return (mkState qc
              (phase_mul global_phase (phase_mul shift_phase_shift reflection_phase_shift))).

(** The body of the shift loop: [Return None] is [continue], [Return (Some
    _)] is the [break] with everything the code has saved by then. *)
Definition try_combination (canonical_coordinate_table : gmap string coord)
    (target_canonical_coord : coord) (operation : string)
    (source_reflection_name : reflection_name)
    (reflected : coord * QuantumCircuit * phase)
    (source_shift_name : shift_name) : result (option Solution) :=
  let '(reflected_source_coord, source_reflection, reflection_phase_shift) := reflected in
  let '(shifted_source_coord, source_shift, shift_phase_shift) :=
    apply_shift source_shift_name reflected_source_coord in
  match find_overlap axis_pairs shifted_source_coord target_canonical_coord with
  | None => Return None
  | Some (source_shared, target_shared) =>
      '(source_first, source_second) ← other_axes source_shared;
      '(target_first, target_second) ← other_axes target_shared;
      c ← getitem canonical_coordinate_table operation;
      match decompose_xxyy_into_xxyy_xx canonical_matrix rz_matrix
              (coord_get target_canonical_coord target_first)
              (coord_get target_canonical_coord target_second)
              (coord_get shifted_source_coord source_first)
              (coord_get shifted_source_coord source_second)
              (coord_get c 0)
      with
      | (Some r, Some s, Some u, Some v, Some x, Some y) =>
          Return (Some (mkSolution
            source_reflection_name source_shift_name
            source_reflection reflection_phase_shift
            source_shift shift_phase_shift
            (canonical_rotation_circuit (Z.of_nat source_first) (Z.of_nat source_second))
            (canonical_rotation_circuit (Z.of_nat target_first) (Z.of_nat target_second))
            r s u v x y))
      | _ => Return None
      end
  end.

(** The loop body at one (reflection, shift) combination. *)
Definition combination_body (canonical_coordinate_table : gmap string coord)
    (source_canonical_coord target_canonical_coord : coord) (operation : string)
    (c : reflection_name * shift_name) : result (option Solution) :=
  try_combination canonical_coordinate_table target_canonical_coord operation
    c.1 (apply_reflection c.1 source_canonical_coord) c.2.

Fixpoint shift_loop (canonical_coordinate_table : gmap string coord)
    (target_canonical_coord : coord) (operation : string)
    (source_reflection_name : reflection_name)
    (reflected : coord * QuantumCircuit * phase)
    (names : list shift_name) : result (option Solution) :=
  match names with
  | [] => Return None
  | source_shift_name :: rest =>
      found ← try_combination canonical_coordinate_table target_canonical_coord
                operation source_reflection_name reflected source_shift_name;
      match found with
      | Some sol => Return (Some sol)
      | None => shift_loop canonical_coordinate_table target_canonical_coord
                  operation source_reflection_name reflected rest
      end
  end.

Fixpoint reflection_loop (canonical_coordinate_table : gmap string coord)
    (source_canonical_coord target_canonical_coord : coord) (operation : string)
    (names : list reflection_name) : result (option Solution) :=
  match names with
  | [] => Return None
  | source_reflection_name :: rest =>
      found ← shift_loop canonical_coordinate_table target_canonical_coord operation
                source_reflection_name
                (apply_reflection source_reflection_name source_canonical_coord)
                shift_names;
      match found with
      | Some sol => Return (Some sol)
      | None => reflection_loop canonical_coordinate_table source_canonical_coord
                  target_canonical_coord operation rest
      end
  end.

(** The search of one hop over [reflection_options.keys()] and
    [shift_options.keys()]. *)
Definition search_hop (canonical_coordinate_table : gmap string coord) (h : hop)
  : result (option Solution) :=
  let '(source_alcove_coord, operation, target_alcove_coord) := h in
  let '(sx, sy, sz) := source_alcove_coord in
  let '(tx, ty, tz) := target_alcove_coord in
  reflection_loop canonical_coordinate_table
    (alcove_to_positive_canonical_coordinate sx sy sz)
    (alcove_to_positive_canonical_coordinate tx ty tz)
    operation reflection_names.

(** One iteration of the loop over [decomposition[1:]]. *)
Definition later_hop (canonical_coordinate_table : gmap string coord)
    (canonical_gate_table : gmap string QuantumCircuit)
    (st : RunningState) (h : hop) : result RunningState :=
  found ← search_hop canonical_coordinate_table h;
  match found with
  | None => Raise NoBacksolution
  | Some sol =>
      native ← getitem canonical_gate_table h.1.2;
      Return (mkState
                (assemble_hop (st_circuit st) native sol)
                (phase_mul (st_phase st)
                   (phase_mul (reflection_phase_shift sol) (shift_phase_shift sol))))
  end.

Fixpoint later_hops (canonical_coordinate_table : gmap string coord)
    (canonical_gate_table : gmap string QuantumCircuit)
    (st : RunningState) (hops : list hop) : result RunningState :=
  match hops with
  | [] => Return st
  | h :: rest =>
      st' ← later_hop canonical_coordinate_table canonical_gate_table st h;
      later_hops canonical_coordinate_table canonical_gate_table st' rest
  end.

Definition xx_circuit_from_decomposition (decomposition : list hop)
    (operations : list OperationPolytope) : result QuantumCircuit :=
  let qc := empty_circuit in
  canonical_coordinate_table ← build_coordinate_table operations ∅;
  if negb (all_xx_type canonical_coordinate_table) then Raise AssertionError
  else
    canonical_gate_table ← build_gate_table operations ∅;
    match decomposition with
    | [] => Return qc
    | first :: rest =>
        st ← first_hop canonical_gate_table first;
        st ← later_hops canonical_coordinate_table canonical_gate_table st rest;
        Return (mkCircuit (data (st_circuit st)) (- np_log_imag (st_phase st)))
    end.

(** The two tables of a catalog that passes the XX-type assertion. *)
Definition catalog_tables (operations : list OperationPolytope)
    (canonical_coordinate_table : gmap string coord)
    (canonical_gate_table : gmap string QuantumCircuit) : Prop :=
  build_coordinate_table operations ∅ = Return canonical_coordinate_table
  /\ all_xx_type canonical_coordinate_table = true
  /\ build_gate_table operations ∅ = Return canonical_gate_table.

(** The canonical coordinates of the two ends of a hop. *)
Definition hop_source (h : hop) : coord :=
  let '(x, y, z) := h.1.1 in alcove_to_positive_canonical_coordinate x y z.
Definition hop_target (h : hop) : coord :=
  let '(x, y, z) := h.2 in alcove_to_positive_canonical_coordinate x y z.

(** The running phase after the first hop. *)
Definition first_hop_phase (h : hop) : phase :=
  if Qle_bool h.2.1.1 (1 # 4) then phase_one
  else phase_mul phase_one
         (phase_mul (shift_options X_shift).1.2 (reflection_options reflect_XX_YY).1.2).

(** What the two tables hold under one label: nothing in either, or the
    coordinate and the circuit of one catalog entry with that label. *)
Definition same_entry (operations_list : list OperationPolytope) (name : string)
    (c : option coord) (native : option QuantumCircuit) : Prop :=
  match c, native with
  | None, None => True
  | Some c, Some native =>
      exists op, In op operations_list /\ operations op !! 0%nat = Some name
                 /\ operation_coordinate op = Return c
                 /\ canonical_circuit op = native
  | _, _ => False
  end.

End Synthesis.

(** The synthesis at the example instances of the external functions. *)
Definition example_synthesis (decomposition : list hop)
    (operations : list OperationPolytope) : result QuantumCircuit :=
  xx_circuit_from_decomposition example_transform example_epsilon
    example_canonical_matrix example_rz_matrix decomposition operations.

(** ** Further definitions *)

(** The product in the middle of the circuit identity,
    [CAN(a1, b1) (Zu, Zv) CAN(a2)], as [decompose_xxyy_into_xxyy_xx] builds
    it. *)
Definition middle_matrix (canonical_matrix : R -> R -> R -> matrix)
    (rz_matrix : R -> matrix) (a1 b1 a2 u v : R) : matrix :=
  np_dot (np_dot (canonical_matrix a1 b1 0) (np_kron (rz_matrix u) (rz_matrix v)))
         (canonical_matrix a2 0 0).

(** A single-qubit rotation on one of the two wires. *)
Definition is_local_rotation (i : Instruction) : Prop :=
  match i.1 with
  | OpaqueGate _ _ _ => False
  | _ => i.2 = [0%nat] \/ i.2 = [1%nat]
  end.

(** The row [eq] has a zero coefficient for the variable [j]: the generator
    of [next_solved_coordinate] passes over it. *)
Definition zero_coefficient (j : nat) (eq : list Q) : Prop :=
  exists a, eq !! (1 + j)%nat = Some a /\ (a == 0)%Q.

(** The rotation circuits for the ascending index pairs. *)
Definition ascending_rotations : list QuantumCircuit :=
  [canonical_rotation_circuit 1 2; canonical_rotation_circuit 0 2;
   canonical_rotation_circuit 0 1].

(** The rotation circuits for the three other index pairs. *)
Definition descending_rotations : list QuantumCircuit :=
  [canonical_rotation_circuit 1 0; canonical_rotation_circuit 2 0;
   canonical_rotation_circuit 2 1].

(** [interleaved natives l]: the instruction list [l] is the circuits
    [natives], in this order and unchanged, with single-qubit rotations
    before, between and after them. *)
Inductive interleaved : list QuantumCircuit -> list Instruction -> Prop :=
| interleaved_nil (l : list Instruction) :
    Forall is_local_rotation l -> interleaved [] l
| interleaved_cons (native : QuantumCircuit) (natives : list QuantumCircuit)
    (l rest : list Instruction) :
    Forall is_local_rotation l -> interleaved natives rest ->
    interleaved (native :: natives) (l ++ data native ++ rest).

(** The shared axis pair the scan finds once the symmetry [c] has been
    applied to the source, if any. *)
Definition combination_overlap (source target : coord)
    (c : reflection_name * shift_name) : option (nat * nat) :=
  find_overlap axis_pairs (apply_shift c.2 (apply_reflection c.1 source).1.1).1.1 target.

(** [a < b] on fractions. *)
Definition Qlt_bool (a b : Q) : bool := negb (Qle_bool b a).

Section CheapestContainer.

(** The coverage polytopes come from [coverage.py]; the code reads their
    [cost] and asks them whether they contain the point polytope. *)
Variable Polytope : Type.
Variable polytope_cost : Polytope -> Q.
Variable contains : Polytope -> Polytope -> bool.

(** [polytope.cost < best_cost], where [None] is [float("inf")]. *)
Definition below_best (c : Q) (best_cost : option Q) : bool :=
  match best_cost with
  | None => true
  | Some b => Qlt_bool c b
  end.

(** The loop of [cheapest_container] from a given [working_polytope] and
    [best_cost]. *)
Fixpoint cheapest_container_from (coverage_set : list Polytope)
    (point_polytope : Polytope) (working_polytope : option Polytope)
    (best_cost : option Q) : option Polytope :=
  match coverage_set with
  | [] => working_polytope
  | polytope :: rest =>
      if below_best (polytope_cost polytope) best_cost
         && contains polytope point_polytope
      then cheapest_container_from rest point_polytope
             (Some polytope) (Some (polytope_cost polytope))
      else cheapest_container_from rest point_polytope working_polytope best_cost
  end.

(** A property [P] holds of every polytope of [l] that contains [point]. *)
Definition among_containers (point : Polytope) (P : Polytope -> Prop)
    (l : list Polytope) : Prop :=
  Forall (fun q => contains q point = true -> P q) l.

Definition cheapest_container (coverage_set : list Polytope)
    (point_polytope : Polytope) : option Polytope :=
  cheapest_container_from coverage_set point_polytope None None.

End CheapestContainer.

(** A coverage set for the examples: a polytope is a name, a cost and the
    points it holds. *)
Definition example_polytope : Type := string * Q * list nat.

Definition example_polytope_cost (p : example_polytope) : Q := p.1.2.

Definition example_contains (p point : example_polytope) : bool :=
  forallb (fun x => existsb (Nat.eqb x) p.2) point.2.

Definition example_coverage_set : list example_polytope :=
  [("far", (3 # 2)%Q, [1; 2; 3]%nat); ("one", (1 # 2)%Q, [1; 2]%nat);
   ("other", (1 # 2)%Q, [2; 3]%nat); ("miss", (1 # 3)%Q, [4]%nat)].

Definition example_point : example_polytope := ("point", 0%Q, [2]%nat).
(** * Properties *)

(** ** Real-number facts *)

Lemma PI_lower : 3 < PI.
Proof. pose proof PI2_3_2. lra. Qed.

Lemma np_log_imag_one : np_log_imag phase_one = 0.
Proof.
  unfold np_log_imag, np_arctan2, phase_one. simpl.
  rewrite decide_True by lra. unfold Rdiv. rewrite Rmult_0_l. apply atan_0.
Qed.

Lemma np_log_imag_minus_j : np_log_imag (0, -1)%Z = - (PI / 2).
Proof.
  unfold np_log_imag, np_arctan2. simpl.
  rewrite decide_False by lra. rewrite decide_False by lra.
  rewrite decide_False by lra. rewrite decide_True by lra. reflexivity.
Qed.

(** ** The remainder and [nearp] *)

Lemma np_mod_bounds (x m r : R) :
  0 < m -> np_mod x m = Some r ->
  exists q : Z, r = x - IZR q * m /\ 0 <= r < m.
Proof.
  intros Hm. unfold np_mod. case_decide; [lra|].
  intros [= <-]. exists (Zfloor (x / m)). split; [reflexivity|].
  destruct (Zfloor_bound (x / m)) as [Hlo Hhi].
  assert (Hx : x = x / m * m) by (field; lra).
  split.
  - assert (IZR (Zfloor (x / m)) * m <= x / m * m) by (apply Rmult_le_compat_r; lra). lra.
  - assert (x / m * m < (IZR (Zfloor (x / m)) + 1) * m) by (apply Rmult_lt_compat_r; lra). lra.
Qed.

Lemma np_mod_small (x m : R) : 0 <= x < m -> np_mod x m = Some x.
Proof.
  intros [Hx Hm]. unfold np_mod. case_decide; [lra|].
  replace (Zfloor (x / m)) with 0%Z; [f_equal; lra|].
  symmetry. apply Zfloor_eq. simpl.
  split.
  - apply Rmult_le_pos; [lra|]. left. apply Rinv_0_lt_compat. lra.
  - apply (Rmult_lt_reg_r m); [lra|]. replace (x / m * m) with x by (field; lra). lra.
Qed.

(** Below one modulus the remainder is the distance itself. *)
Lemma nearp_small (x y m e : R) :
  0 <= Rabs (x - y) < m ->
  nearp x y m e = bool_decide (Rabs (x - y) < e) || bool_decide (m - Rabs (x - y) < e).
Proof.
  intros H. unfold nearp. rewrite np_mod_small by exact H.
  f_equal.
  - apply bool_decide_ext. rewrite (Rabs_right (Rabs (x - y))); [tauto|lra].
  - apply bool_decide_ext. rewrite (Rabs_left (Rabs (x - y) - m)); [|lra].
    split; intros; lra.
Qed.

Lemma nearp_far (x y m e : R) :
  e <= Rabs (x - y) -> Rabs (x - y) <= m - e -> 0 < e -> nearp x y m e = false.
Proof.
  intros H1 H2 He. rewrite nearp_small by lra.
  apply orb_false_intro; apply bool_decide_eq_false; lra.
Qed.

Lemma nearp_congruent (x y m e : R) :
  0 < m -> nearp x y m e = true <-> congruent_within x y m e.
Proof.
  intros Hm. unfold nearp, congruent_within.
  destruct (np_mod (Rabs (x - y)) m) as [r|] eqn:E.
  2:{ unfold np_mod in E. case_decide; [lra|discriminate]. }
  destruct (np_mod_bounds _ _ _ Hm E) as (q & Hr & Hr0 & Hr1).
  rewrite orb_true_iff, !bool_decide_eq_true.
  split.
  - intros [H|H].
    + rewrite Rabs_right in H by lra.
      destruct (Rle_dec 0 (x - y)) as [Hs|Hs].
      * exists q. rewrite Rabs_right in Hr by lra. rewrite Rabs_right; lra.
      * exists (- q)%Z. rewrite opp_IZR. rewrite Rabs_left in Hr by lra.
        rewrite Rabs_left1; lra.
    + rewrite Rabs_left in H by lra.
      destruct (Rle_dec 0 (x - y)) as [Hs|Hs].
      * exists (q + 1)%Z. rewrite plus_IZR. rewrite Rabs_right in Hr by lra.
        rewrite Rabs_left1; lra.
      * exists (- (q + 1))%Z. rewrite opp_IZR, plus_IZR. rewrite Rabs_left in Hr by lra.
        rewrite Rabs_right; lra.
  - intros [k Hk].
    assert (exists k' : Z, Rabs (Rabs (x - y) - IZR k' * m) < e) as [k' Hk'].
    { destruct (Rle_dec 0 (x - y)) as [Hs|Hs].
      - exists k. rewrite (Rabs_right (x - y)) by lra. exact Hk.
      - exists (- k)%Z. rewrite opp_IZR. rewrite (Rabs_left (x - y)) by lra.
        replace (- (x - y) - - IZR k * m) with (- (x - y - IZR k * m)) by lra.
        rewrite Rabs_Ropp. exact Hk. }
    destruct (Z_le_gt_dec k' q) as [Hle|Hgt].
    + left. apply IZR_le in Hle.
      assert (IZR k' * m <= IZR q * m) by (apply Rmult_le_compat_r; lra).
      rewrite Rabs_right by lra. rewrite Rabs_right in Hk' by lra. lra.
    + right. assert (Hge : (q + 1 <= k')%Z) by lia. apply IZR_le in Hge.
      rewrite plus_IZR in Hge.
      assert ((IZR q + 1) * m <= IZR k' * m) by (apply Rmult_le_compat_r; lra).
      rewrite Rabs_left by lra. rewrite Rabs_left1 in Hk' by lra. lra.
Qed.

(** C6 (as amended). [nearp] holds exactly when the difference is strictly
    within the tolerance of a multiple of the (positive) modulus, on either
    side.  At modulus pi/2 and tolerance 1e-2, the points 0.01 and
    pi/2 - 0.01 are 0.02 apart across the wrap and so not near; 0.004 and
    pi/2 - 0.004 are near; 0 and pi/4 are not. *)
Theorem nearp_wraparound (x y modulus tolerance : R) :
  0 < modulus ->
  (nearp x y modulus tolerance = true <-> congruent_within x y modulus tolerance)
  /\ nearp 0.01 (PI / 2 - 0.01) (PI / 2) 1e-2 = false
  /\ nearp 0.004 (PI / 2 - 0.004) (PI / 2) 1e-2 = true
  /\ nearp 0.0 (PI / 4) (PI / 2) 1e-2 = false.
Proof.
  intros Hm. pose proof PI_lower as HPI.
  split; [apply nearp_congruent; exact Hm|].
  split; [|split].
  - apply nearp_far; rewrite ?Rabs_left by lra; lra.
  - rewrite nearp_small by (rewrite Rabs_left by lra; lra).
    rewrite Rabs_left by lra. apply orb_true_intro. right.
    apply bool_decide_eq_true. lra.
  - apply nearp_far; rewrite ?Rabs_left by lra; lra.
Qed.

Lemma nearp_wraparound_witness :
  0 < PI / 2
  /\ (nearp 0.004 (PI / 2 - 0.004) (PI / 2) 1e-2 = true
      <-> congruent_within 0.004 (PI / 2 - 0.004) (PI / 2) 1e-2).
Proof.
  assert (H : 0 < PI / 2) by (pose proof PI_lower; lra).
  split; [exact H|].
  exact (proj1 (nearp_wraparound 0.004 (PI / 2 - 0.004) (PI / 2) 1e-2 H)).
Defined.

(** C6, as stated, fails on its own example: the code answers false. *)
Lemma nearp_wraparound_counterexample :
  nearp 0.01 (PI / 2 - 0.01) (PI / 2) 1e-2 = false.
Proof.
  pose proof PI_lower as HPI.
  apply nearp_far; rewrite ?Rabs_left by lra; lra.
Qed.

(** ** [safe_arccos] *)

Lemma Rabs_ratio_le (n d : R) : d <> 0 -> Rabs n <= Rabs d -> -1 <= n / d <= 1.
Proof.
  intros Hd Hle.
  assert (Hpos : 0 < Rabs d) by (apply Rabs_pos_lt; exact Hd).
  assert (Hq : Rabs (n / d) <= 1).
  { unfold Rdiv. rewrite Rabs_mult, Rabs_inv.
    apply (Rmult_le_reg_r (Rabs d)); [exact Hpos|].
    rewrite Rmult_assoc, Rinv_l by lra. lra. }
  revert Hq. unfold Rabs. destruct Rcase_abs; lra.
Qed.

Lemma Rabs_ratio_lt (n d : R) : d <> 0 -> Rabs n < Rabs d -> -1 < n / d < 1.
Proof.
  intros Hd Hlt.
  assert (Hpos : 0 < Rabs d) by (apply Rabs_pos_lt; exact Hd).
  assert (Hq : Rabs (n / d) < 1).
  { unfold Rdiv. rewrite Rabs_mult, Rabs_inv.
    apply (Rmult_lt_reg_r (Rabs d)); [exact Hpos|].
    rewrite Rmult_assoc, Rinv_l by lra. lra. }
  apply Rabs_def2 in Hq. lra.
Qed.

(** The last branch: the plain arccosine. *)
Lemma safe_arccos_inside (n d : R) :
  Rabs n <= Rabs d -> d <> 0 -> safe_arccos n d = Some (acos (n / d)).
Proof.
  intros Hle Hd. unfold safe_arccos.
  rewrite (bool_decide_eq_false_2 (Rabs n > Rabs d)) by lra. simpl.
  unfold np_divide. rewrite decide_False by exact Hd. simpl.
  rewrite decide_True; [reflexivity|].
  apply Rabs_ratio_le; assumption.
Qed.

Lemma safe_arccos_zero (n d : R) :
  Rabs n > Rabs d -> Rabs (n - d) < 0.005 -> safe_arccos n d = Some 0.
Proof.
  intros H1 H2. unfold safe_arccos.
  rewrite (bool_decide_eq_true_2 _ H1), (bool_decide_eq_true_2 _ H2). reflexivity.
Qed.

Lemma safe_arccos_pi (n d : R) :
  Rabs n > Rabs d -> ~ Rabs (n - d) < 0.005 -> Rabs (n + d) < 0.005 ->
  safe_arccos n d = Some PI.
Proof.
  intros H1 H2 H3. unfold safe_arccos.
  rewrite (bool_decide_eq_true_2 _ H1), (bool_decide_eq_false_2 _ H2),
    (bool_decide_eq_true_2 _ H3). reflexivity.
Qed.

Lemma acos_interior (x : R) : -1 < x < 1 -> acos x <> 0 /\ acos x <> PI.
Proof. intros Hx. pose proof (acos_bound_lt x Hx). lra. Qed.

(** The backsolver returns six numbers as soon as its two arccosines are
    defined. *)
Lemma decompose_defined canonical_matrix rz_matrix (a_target b_target a1 b1 a2 p m : R) :
  safe_arccos
    (cos (a1 - b1) ^ 2 * cos a2 ^ 2 + sin (a1 - b1) ^ 2 * sin a2 ^ 2
     - cos (a_target - b_target) ^ 2)
    (2 * cos (a1 - b1) * cos a2 * sin (a1 - b1) * sin a2) = Some p ->
  safe_arccos
    (cos (a1 + b1) ^ 2 * cos a2 ^ 2 + sin (a1 + b1) ^ 2 * sin a2 ^ 2
     - cos (a_target + b_target) ^ 2)
    (2 * cos (a1 + b1) * cos a2 * sin (a1 + b1) * sin a2) = Some m ->
  exists r s x y,
    decompose_xxyy_into_xxyy_xx canonical_matrix rz_matrix a_target b_target a1 b1 a2
    = (Some r, Some s, Some (1 / 2 * (1 / 2 * p + 1 / 2 * m)),
       Some (1 / 2 * (1 / 2 * p - 1 / 2 * m)), Some x, Some y).
Proof.
  intros Hp Hm. unfold decompose_xxyy_into_xxyy_xx.
  rewrite Hp, Hm. cbn [fl_scale fl_add fl_sub fmap option_fmap option_map mbind option_bind].
  match goal with |- context [if ?b then _ else _] => destruct b end; eauto.
Qed.

(** A NaN arccosine makes the backsolver's [u] and [v] NaN. *)
Lemma decompose_nan canonical_matrix rz_matrix (a_target b_target a1 b1 a2 : R) :
  safe_arccos
    (cos (a1 - b1) ^ 2 * cos a2 ^ 2 + sin (a1 - b1) ^ 2 * sin a2 ^ 2
     - cos (a_target - b_target) ^ 2)
    (2 * cos (a1 - b1) * cos a2 * sin (a1 - b1) * sin a2) = None ->
  decompose_xxyy_into_xxyy_xx canonical_matrix rz_matrix a_target b_target a1 b1 a2
  = (None, None, None, None, None, None).
Proof.
  intros Hp. unfold decompose_xxyy_into_xxyy_xx. rewrite Hp. reflexivity.
Qed.

(** C5 (as amended).  With a nonzero denominator and |n| = |d| + 1e-3 the
    result is exactly 0.0 or exactly pi, never NaN: 0.0 when |n - d| < 0.005
    (in particular whenever n and d have the same sign) and pi otherwise (in
    particular when the signs differ and |d| >= 0.002).  With
    |n| = |d| - 1e-3 the guard |n| > |d| is false and the result is
    arccos(n/d), which is neither 0 nor pi.  stableArccos(0.5, 1.0) is
    arccos(0.5). *)
Theorem safe_arccos_boundary (n d : R) :
  d <> 0 ->
  (Rabs n = Rabs d + 1e-3 ->
     (Rabs (n - d) < 0.005 -> safe_arccos n d = Some 0)
     /\ (~ Rabs (n - d) < 0.005 -> safe_arccos n d = Some PI)
     /\ (0 < n * d -> safe_arccos n d = Some 0)
     /\ (n * d < 0 -> 0.002 <= Rabs d -> safe_arccos n d = Some PI))
  /\ (Rabs n = Rabs d - 1e-3 ->
        safe_arccos n d = Some (acos (n / d))
        /\ safe_arccos n d <> Some 0 /\ safe_arccos n d <> Some PI)
  /\ safe_arccos 0.5 1.0 = Some (acos 0.5).
Proof.
  intros Hd. split; [|split].
  - intros Habove.
    assert (Hgt : Rabs n > Rabs d) by lra.
    assert (Hsame : 0 < n * d -> Rabs (n - d) < 0.005).
    { intros Hs. revert Habove. unfold Rabs. repeat destruct Rcase_abs; intros; nra. }
    assert (Hopp : ~ Rabs (n - d) < 0.005 -> Rabs (n + d) < 0.005).
    { revert Habove. unfold Rabs. repeat destruct Rcase_abs; intros; lra. }
    repeat split.
    + intros H. apply safe_arccos_zero; assumption.
    + intros H. apply safe_arccos_pi; auto.
    + intros H. apply safe_arccos_zero; auto.
    + intros Hs Hbig.
      assert (Hfar : ~ Rabs (n - d) < 0.005).
      { revert Habove Hbig. unfold Rabs. repeat destruct Rcase_abs; intros; nra. }
      apply safe_arccos_pi; auto.
  - intros Hbelow.
    assert (E : safe_arccos n d = Some (acos (n / d)))
      by (apply safe_arccos_inside; [lra|exact Hd]).
    destruct (acos_interior (n / d)) as [H0 HP]; [apply Rabs_ratio_lt; [exact Hd|lra]|].
    rewrite E. repeat split; congruence.
  - rewrite safe_arccos_inside.
    + f_equal. f_equal. lra.
    + rewrite !Rabs_right; lra.
    + lra.
Qed.

Lemma safe_arccos_boundary_witness :
  safe_arccos 1.001 1 = Some 0 /\ safe_arccos (-1.001) 1 = Some PI
  /\ safe_arccos 0.999 1 = Some (acos (0.999 / 1)).
Proof.
  assert (H1 : (1 : R) <> 0) by lra.
  destruct (safe_arccos_boundary 1.001 1 H1) as [Ha _].
  destruct (safe_arccos_boundary (-1.001) 1 H1) as [Hb _].
  destruct (safe_arccos_boundary 0.999 1 H1) as (_ & Hc & _).
  destruct Ha as (Ha & _); [rewrite !Rabs_right; lra|].
  destruct Hb as (_ & Hb & _); [rewrite Rabs_left, Rabs_right; lra|].
  destruct Hc as (Hc & _); [rewrite !Rabs_right; lra|].
  split; [|split].
  - apply Ha. rewrite Rabs_right; lra.
  - apply Hb. rewrite Rabs_left; lra.
  - exact Hc.
Defined.

(** C5, as stated, fails just inside the boundary: at n = 0.999, d = 1 the
    code returns arccos(0.999), neither 0.0 nor pi. *)
Lemma safe_arccos_boundary_counterexample :
  (1 : R) <> 0 /\ Rabs (Rabs 0.999 - Rabs 1) = 1e-3
  /\ safe_arccos 0.999 1 <> Some 0 /\ safe_arccos 0.999 1 <> Some PI.
Proof.
  assert (E : safe_arccos 0.999 1 = Some (acos (0.999 / 1))).
  { apply safe_arccos_inside; [rewrite !Rabs_right; lra | lra]. }
  destruct (acos_interior (0.999 / 1)) as [H0 HP]; [lra|].
  repeat split.
  - lra.
  - rewrite (Rabs_right 0.999), (Rabs_right 1) by lra. rewrite Rabs_left; lra.
  - rewrite E. congruence.
  - rewrite E. congruence.
Qed.

(** ** Axis rotations *)

(** C10.  [canonical_rotation_circuit] never raises: off the six handled
    pairs it returns the empty circuit, the same as for (0, 1). *)
Theorem canonical_rotation_circuit_total (first_index second_index : Z) :
  ~ In (first_index, second_index) [(0, 1); (0, 2); (1, 0); (1, 2); (2, 0); (2, 1)]%Z ->
  canonical_rotation_circuit first_index second_index = empty_circuit
  /\ canonical_rotation_circuit first_index second_index = canonical_rotation_circuit 0 1.
Proof.
  intros Hnot.
  assert (E : canonical_rotation_circuit first_index second_index = empty_circuit).
  { unfold canonical_rotation_circuit.
    repeat case_decide; try reflexivity; exfalso; apply Hnot; simpl; auto 10. }
  split; [exact E | rewrite E; reflexivity].
Qed.

Lemma canonical_rotation_circuit_total_witness :
  canonical_rotation_circuit 1 1 = empty_circuit
  /\ canonical_rotation_circuit 1 1 = canonical_rotation_circuit 0 1.
Proof.
  apply (canonical_rotation_circuit_total 1 1).
  simpl. intros H. decompose [or] H; try discriminate; assumption.
Defined.

(** ** The assembled circuit of one hop *)

Lemma assemble_hop_data (qc native : QuantumCircuit) (sol : Solution) :
  data (assemble_hop qc native sol) =
    data (inverse (permute_target_for_overlap sol))
    ++ rz_pair (angle_x sol) (angle_y sol)
    ++ data native
    ++ rz_pair (angle_u sol) (angle_v sol)
    ++ data (permute_source_for_overlap sol)
    ++ data (source_reflection sol)
    ++ data qc
    ++ data (inverse (source_reflection sol))
    ++ data (source_shift sol)
    ++ data (inverse (permute_source_for_overlap sol))
    ++ rz_pair (angle_r sol) (angle_s sol)
    ++ data (permute_target_for_overlap sol).
Proof.
  unfold assemble_hop, compose, append, rz_pair. cbn [data empty_circuit].
  rewrite !app_nil_l, <- !app_assoc. reflexivity.
Qed.

(** ** First success over a list *)

Lemma first_success_app {A B} (f : A -> result (option B)) (l1 l2 : list A) :
  first_success f (l1 ++ l2) =
    found ← first_success f l1;
    match found with
    | Some b => Return (Some b)
    | None => first_success f l2
    end.
Proof.
  induction l1 as [|a l1 IH]; simpl; [reflexivity|].
  destruct (f a) as [[b|]|e]; simpl; auto.
Qed.

Lemma first_success_map {A A' B} (g : A' -> A) (f : A -> result (option B)) (l : list A') :
  first_success f (map g l) = first_success (fun a => f (g a)) l.
Proof.
  induction l as [|a l IH]; simpl; [reflexivity|].
  destruct (f (g a)) as [[b|]|e]; simpl; auto.
Qed.

Lemma first_success_skip {A B} (f : A -> result (option B)) (l : list A) :
  Forall (fun a => f a = Return None) l -> first_success f l = Return None.
Proof.
  induction 1 as [|a l Ha _ IH]; simpl; [reflexivity|].
  rewrite Ha. simpl. exact IH.
Qed.

Lemma first_success_found {A B} (f : A -> result (option B)) (l : list A) (b : B) :
  first_success f l = Return (Some b) ->
  exists l1 a l2, l = l1 ++ a :: l2
    /\ Forall (fun a' => f a' = Return None) l1 /\ f a = Return (Some b).
Proof.
  induction l as [|a l IH]; simpl; [discriminate|].
  destruct (f a) as [[b'|]|e] eqn:E; simpl.
  - intros [= <-]. exists [], a, l. auto.
  - intros H. destruct (IH H) as (l1 & a' & l2 & -> & Hskip & Hok).
    exists (a :: l1), a', l2.
    split; [reflexivity|]. split; [constructor; assumption|assumption].
  - discriminate.
Qed.

Lemma first_success_none {A B} (f : A -> result (option B)) (l : list A) :
  first_success f l = Return None -> Forall (fun a => f a = Return None) l.
Proof.
  induction l as [|a l IH]; simpl; [constructor|].
  destruct (f a) as [[b|]|e] eqn:E; simpl; try discriminate.
  intros H. constructor; [exact E|apply IH; exact H].
Qed.

Lemma first_success_raises {A B} (f : A -> result (option B)) (l : list A) (e : exn) :
  first_success f l = Raise e -> exists a, In a l /\ f a = Raise e.
Proof.
  induction l as [|a l IH]; simpl; [discriminate|].
  destruct (f a) as [[b|]|e'] eqn:E; simpl; try discriminate.
  - intros H. destruct (IH H) as (a' & Hin & Ha'). exists a'. auto.
  - intros [= <-]. exists a. auto.
Qed.

(** ** The symmetry tables *)

Lemma apply_reflection_phase (name : reflection_name) (c : coord) :
  (apply_reflection name c).2 = (reflection_options name).1.2.
Proof. destruct name, c as [[c0 c1] c2]; reflexivity. Qed.

Lemma apply_shift_phase (name : shift_name) (c : coord) :
  (apply_shift name c).2 = (shift_options name).1.2.
Proof. destruct name, c as [[c0 c1] c2]; reflexivity. Qed.

Lemma all_combinations_length : length all_combinations = 32%nat.
Proof. reflexivity. Qed.

Lemma phase_norm_mul (a b : phase) :
  phase_norm (phase_mul a b) = (phase_norm a * phase_norm b)%Z.
Proof. destruct a as [ar ai], b as [br bi]. unfold phase_norm, phase_mul. simpl. ring. Qed.

Lemma reflection_phase_unit (name : reflection_name) :
  phase_norm (reflection_options name).1.2 = 1%Z.
Proof. destruct name; reflexivity. Qed.

Lemma shift_phase_unit (name : shift_name) :
  phase_norm (shift_options name).1.2 = 1%Z.
Proof. destruct name; reflexivity. Qed.

(** ** Further properties of the geometry utilities *)

Lemma congruent_within_sym (x y m e : R) :
  congruent_within x y m e -> congruent_within y x m e.
Proof.
  intros [k Hk]. exists (- k)%Z. rewrite opp_IZR.
  replace (y - x - - IZR k * m) with (- (x - y - IZR k * m)) by lra.
  rewrite Rabs_Ropp. exact Hk.
Qed.

Lemma congruent_within_shift (x y m e : R) (k : Z) :
  congruent_within x y m e -> congruent_within (x + IZR k * m) y m e.
Proof.
  intros [j Hj]. exists (j + k)%Z. rewrite plus_IZR.
  replace (x + IZR k * m - y - (IZR j + IZR k) * m) with (x - y - IZR j * m) by lra.
  exact Hj.
Qed.

Lemma bool_eq_of_iff (a b : bool) : (a = true <-> b = true) -> a = b.
Proof.
  destruct a, b; intros [H1 H2]; try reflexivity.
  - symmetry. apply H1. reflexivity.
  - apply H2. reflexivity.
Qed.

(** X3.  For a positive modulus [nearp] is symmetric in its two points,
    unchanged when a point moves by a whole number of moduli, and true of a
    point and itself when the tolerance is positive. *)
Theorem nearp_symmetric_periodic (x y modulus epsilon : R) (k : Z) :
  0 < modulus ->
  nearp x y modulus epsilon = nearp y x modulus epsilon
  /\ nearp (x + IZR k * modulus) y modulus epsilon = nearp x y modulus epsilon
  /\ nearp x (y + IZR k * modulus) modulus epsilon = nearp x y modulus epsilon
  /\ (0 < epsilon -> nearp x x modulus epsilon = true).
Proof.
  intros Hm.
  assert (Hshift : forall a b j,
            nearp (a + IZR j * modulus) b modulus epsilon = nearp a b modulus epsilon).
  { intros a b j. apply bool_eq_of_iff. rewrite !nearp_congruent by exact Hm. split.
    - intros H. apply (congruent_within_shift _ _ _ _ (- j)) in H.
      rewrite opp_IZR in H.
      replace (a + IZR j * modulus + - IZR j * modulus) with a in H by lra. exact H.
    - apply congruent_within_shift. }
  assert (Hsym : forall a b, nearp a b modulus epsilon = nearp b a modulus epsilon).
  { intros a b. apply bool_eq_of_iff. rewrite !nearp_congruent by exact Hm.
    split; apply congruent_within_sym. }
  split; [apply Hsym|]. split; [apply Hshift|]. split.
  - rewrite (Hsym x (y + IZR k * modulus)), Hshift. apply Hsym.
  - intros He. apply nearp_congruent; [exact Hm|]. exists 0%Z.
    replace (x - x - 0 * modulus) with 0 by lra. rewrite Rabs_R0. exact He.
Qed.

Lemma nearp_symmetric_periodic_witness :
  nearp (1 + IZR 3 * PI) 2 PI 1e-2 = nearp 1 2 PI 1e-2
  /\ nearp 1 1 PI 1e-2 = true.
Proof.
  assert (H : 0 < PI) by (pose proof PI_lower; lra).
  destruct (nearp_symmetric_periodic 1 2 PI 1e-2 3 H) as (_ & Hs & _).
  destruct (nearp_symmetric_periodic 1 2 PI 1e-2 3 H) as (_ & _ & _ & Hr).
  split; [exact Hs|apply Hr; lra].
Defined.

(** *** [l1_distance] *)

Lemma l1_distance_cons (a b : R) (x y : list R) :
  l1_distance (a :: x) (b :: y) = Rabs (a - b) + l1_distance x y.
Proof. reflexivity. Qed.

Lemma l1_distance_nonneg (x y : list R) : 0 <= l1_distance x y.
Proof.
  revert y. induction x as [|a x IH]; intros [|b y]; try (unfold l1_distance; simpl; lra).
  rewrite l1_distance_cons. pose proof (Rabs_pos (a - b)). pose proof (IH y). lra.
Qed.

Lemma l1_distance_sym (x y : list R) : l1_distance x y = l1_distance y x.
Proof.
  revert y. induction x as [|a x IH]; intros [|b y]; try reflexivity.
  rewrite !l1_distance_cons, (Rabs_minus_sym a b), (IH y). reflexivity.
Qed.

Lemma l1_distance_triangle (x y z : list R) :
  length x = length y -> length y = length z ->
  l1_distance x z <= l1_distance x y + l1_distance y z.
Proof.
  revert y z. induction x as [|a x IH]; intros [|b y] [|c z] Hxy Hyz;
    try discriminate; [unfold l1_distance; simpl; lra|].
  rewrite !l1_distance_cons.
  injection Hxy as Hxy. injection Hyz as Hyz.
  pose proof (IH y z Hxy Hyz).
  pose proof (Rabs_triang (a - b) (b - c)) as Ht.
  replace (a - b + (b - c)) with (a - c) in Ht by lra. lra.
Qed.

Lemma l1_distance_zero (x y : list R) :
  length x = length y -> l1_distance x y = 0 -> x = y.
Proof.
  revert y. induction x as [|a x IH]; intros [|b y] Hlen; try discriminate; [reflexivity|].
  rewrite l1_distance_cons. injection Hlen as Hlen. intros H.
  pose proof (Rabs_pos (a - b)). pose proof (l1_distance_nonneg x y).
  assert (Ha : Rabs (a - b) = 0) by lra.
  assert (Hr : l1_distance x y = 0) by lra.
  f_equal; [|apply IH; assumption].
  destruct (Req_dec_T (a - b) 0) as [E|E]; [lra|].
  apply Rabs_no_R0 in E. contradiction.
Qed.

(** X4.  [l1_distance] is a metric on coordinate lists of one length: it is
    never negative, symmetric, zero exactly between equal lists, and obeys the
    triangle inequality.  On lists of different lengths [zip] drops the
    unmatched tail of the longer one. *)
Theorem l1_distance_metric (x y z tail : list R) :
  length x = length y -> length y = length z ->
  0 <= l1_distance x y
  /\ l1_distance x y = l1_distance y x
  /\ (l1_distance x y = 0 <-> x = y)
  /\ l1_distance x z <= l1_distance x y + l1_distance y z
  /\ l1_distance (x ++ tail) y = l1_distance x y.
Proof.
  intros Hxy Hyz.
  split; [apply l1_distance_nonneg|]. split; [apply l1_distance_sym|].
  split; [|split].
  - split; [apply l1_distance_zero; exact Hxy|].
    intros <-. clear. induction x as [|a x IH]; [reflexivity|].
    rewrite l1_distance_cons, IH.
    replace (a - a) with 0 by lra. rewrite Rabs_R0. lra.
  - apply l1_distance_triangle; assumption.
  - clear z Hyz. revert y Hxy.
    induction x as [|a x IH]; intros [|b y] Hxy; try discriminate.
    + destruct tail; reflexivity.
    + injection Hxy as Hxy. cbn [app]. rewrite !l1_distance_cons, (IH y Hxy). reflexivity.
Qed.

Lemma l1_distance_metric_witness :
  l1_distance [0; 1; 2] [3; 1; 0] <= l1_distance [0; 1; 2] [1; 1; 1] + l1_distance [1; 1; 1] [3; 1; 0]
  /\ l1_distance ([0; 1; 2] ++ [7]) [1; 1; 1] = l1_distance [0; 1; 2] [1; 1; 1].
Proof.
  destruct (l1_distance_metric [0; 1; 2] [1; 1; 1] [3; 1; 0] [7] eq_refl eq_refl)
    as (_ & _ & _ & Ht & Hz).
  split; [exact Ht|exact Hz].
Defined.

(** *** The range of [safe_arccos] *)

Lemma safe_arccos_range (n d a : R) : safe_arccos n d = Some a -> 0 <= a <= PI.
Proof.
  pose proof PI_lower as HPI.
  unfold safe_arccos.
  destruct (bool_decide (Rabs n > Rabs d) && bool_decide (Rabs (n - d) < 0.005)).
  { intros [= <-]. lra. }
  destruct (bool_decide (Rabs n > Rabs d) && bool_decide (Rabs (n + d) < 0.005)).
  { intros [= <-]. lra. }
  unfold np_divide, np_arccos. case_decide; [discriminate|].
  case_decide; [|discriminate].
  intros [= <-]. apply acos_bound.
Qed.

(** X5.  [safe_arccos] returns NaN exactly when both arguments are zero, or
    when |n| > |d| and neither n - d nor n + d is within the threshold 0.005
    of zero; every other result lies in [0, pi]. *)
Theorem safe_arccos_nan_and_range (n d : R) :
  (safe_arccos n d = None <->
     (n = 0 /\ d = 0)
     \/ (Rabs n > Rabs d /\ ~ Rabs (n - d) < 0.005 /\ ~ Rabs (n + d) < 0.005))
  /\ (forall a, safe_arccos n d = Some a -> 0 <= a <= PI).
Proof.
  split; [|intros a; apply safe_arccos_range].
  destruct (Rgt_dec (Rabs n) (Rabs d)) as [Hgt|Hle].
  - destruct (Rlt_dec (Rabs (n - d)) 0.005) as [H1|H1].
    { rewrite safe_arccos_zero by assumption. split; [discriminate|].
      intros [[-> ->]|(_ & H & _)]; [lra|contradiction]. }
    destruct (Rlt_dec (Rabs (n + d)) 0.005) as [H2|H2].
    { rewrite safe_arccos_pi by assumption. split; [discriminate|].
      intros [[-> ->]|(_ & _ & H)]; [lra|contradiction]. }
    split; [intros _; right; auto|intros _].
    unfold safe_arccos.
    rewrite (bool_decide_eq_true_2 _ Hgt), (bool_decide_eq_false_2 _ H1),
      (bool_decide_eq_false_2 _ H2). cbn [andb].
    unfold np_divide, np_arccos. case_decide; [reflexivity|].
    case_decide as Hin; [|reflexivity]. exfalso.
    assert (Hpos : 0 < Rabs d) by (apply Rabs_pos_lt; assumption).
    assert (Hq : Rabs (n / d) <= 1) by (unfold Rabs; destruct Rcase_abs; lra).
    unfold Rdiv in Hq. rewrite Rabs_mult, Rabs_inv in Hq.
    apply (Rmult_le_compat_r (Rabs d)) in Hq; [|lra].
    rewrite Rmult_assoc, Rinv_l in Hq by lra. lra.
  - destruct (Req_dec_T d 0) as [Hd|Hd].
    + subst d. rewrite Rabs_R0 in Hle.
      assert (Hn : n = 0).
      { destruct (Req_dec_T n 0) as [E|E]; [exact E|].
        apply Rabs_pos_lt in E. lra. }
      subst n. split; [intros _; left; auto|intros _].
      unfold safe_arccos.
      rewrite (bool_decide_eq_false_2 (Rabs 0 > Rabs 0)) by lra. cbn [andb].
      unfold np_divide. rewrite decide_True by reflexivity. reflexivity.
    + rewrite safe_arccos_inside by (assumption || lra).
      split; [discriminate|]. intros [[_ ->]|(H & _)]; [contradiction|lra].
Qed.

(** *** The backsolved angles *)

(** X6.  When the backsolver returns six numbers, u + v and u - v are half
    arccosines, so both lie in [0, pi/2], u in [0, pi/2] and v in
    [-pi/4, pi/4]; and (r, s, x, y) solve the phase system of the middle
    matrix: r+s+x+y, r-s+x-y and r-s-x+y are the phases of its entries (0,0),
    (1,1) and (1,2) (the last plus pi/2), and r+s-x-y is the phase of entry
    (0,3) plus pi/2, less pi when the parity correction was applied. *)
Theorem decompose_angles canonical_matrix rz_matrix
    (a_target b_target a1 b1 a2 r s u v x y : R) :
  decompose_xxyy_into_xxyy_xx canonical_matrix rz_matrix a_target b_target a1 b1 a2
  = (Some r, Some s, Some u, Some v, Some x, Some y) ->
  (0 <= u + v <= PI / 2 /\ 0 <= u - v <= PI / 2
   /\ 0 <= u <= PI / 2 /\ - (PI / 4) <= v <= PI / 4)
  /\ r + s + x + y
     = np_angle (middle_matrix canonical_matrix rz_matrix a1 b1 a2 u v 0 0)%nat
  /\ r - s + x - y
     = np_angle (middle_matrix canonical_matrix rz_matrix a1 b1 a2 u v 1 1)%nat
  /\ r - s - x + y
     = np_angle (middle_matrix canonical_matrix rz_matrix a1 b1 a2 u v 1 2)%nat + PI / 2
  /\ (r + s - x - y
      = np_angle (middle_matrix canonical_matrix rz_matrix a1 b1 a2 u v 0 3)%nat + PI / 2
      \/ r + s - x - y
         = np_angle (middle_matrix canonical_matrix rz_matrix a1 b1 a2 u v 0 3)%nat
           + PI / 2 - PI).
Proof.
  unfold decompose_xxyy_into_xxyy_xx, middle_matrix.
  destruct (safe_arccos
              (cos (a1 - b1) ^ 2 * cos a2 ^ 2 + sin (a1 - b1) ^ 2 * sin a2 ^ 2
               - cos (a_target - b_target) ^ 2)
              (2 * cos (a1 - b1) * cos a2 * sin (a1 - b1) * sin a2)) as [p|] eqn:Hp;
    [|discriminate].
  destruct (safe_arccos
              (cos (a1 + b1) ^ 2 * cos a2 ^ 2 + sin (a1 + b1) ^ 2 * sin a2 ^ 2
               - cos (a_target + b_target) ^ 2)
              (2 * cos (a1 + b1) * cos a2 * sin (a1 + b1) * sin a2)) as [m|] eqn:Hm;
    [|discriminate].
  apply safe_arccos_range in Hp. apply safe_arccos_range in Hm.
  cbn [fl_scale fl_add fl_sub fmap option_fmap option_map mbind option_bind].
  match goal with |- context [if ?b then _ else _] => destruct b end;
    intros [= <- <- <- <- <- <-]; (split; [lra|]);
    (split; [lra|]); (split; [lra|]); (split; [lra|]); [right|left]; lra.
Qed.

(** ** Further properties of the symmetry tables *)

Lemma coord_eq (a b : coord) :
  coord_get a 0 = coord_get b 0 -> coord_get a 1 = coord_get b 1 ->
  coord_get a 2 = coord_get b 2 -> a = b.
Proof.
  destruct a as [[a0 a1] a2], b as [[b0 b1] b2]. simpl. intros -> -> ->. reflexivity.
Qed.

(** X7.  The four reflections act on coordinates as a group: each is its own
    inverse and the composite of any two is again one of the four; a
    reflection keeps the magnitude of every coordinate, and its circuit does
    not depend on the coordinate. *)
Theorem reflections_compose (a b : reflection_name) (c : coord) :
  (apply_reflection a (apply_reflection a c).1.1).1.1 = c
  /\ (exists ab, forall c',
        (apply_reflection a (apply_reflection b c').1.1).1.1
        = (apply_reflection ab c').1.1)
  /\ (forall i, Rabs (coord_get (apply_reflection a c).1.1 i) = Rabs (coord_get c i))
  /\ (apply_reflection a c).1.2 = (apply_reflection a (0, 0, 0)).1.2.
Proof.
  split; [|split; [|split]].
  - destruct c as [[c0 c1] c2], a; apply coord_eq; simpl; lra.
  - destruct a, b;
      first [ exists no_reflection; intros [[c0 c1] c2]; apply coord_eq; simpl; lra
            | exists reflect_XX_YY; intros [[c0 c1] c2]; apply coord_eq; simpl; lra
            | exists reflect_XX_ZZ; intros [[c0 c1] c2]; apply coord_eq; simpl; lra
            | exists reflect_YY_ZZ; intros [[c0 c1] c2]; apply coord_eq; simpl; lra ].
  - intros i. destruct c as [[c0 c1] c2], a, i as [|[|i]]; simpl;
      rewrite ?Rmult_1_l; try reflexivity;
      match goal with
      | |- Rabs (-1 * ?t) = _ => replace (-1 * t) with (- t) by lra; apply Rabs_Ropp
      end.
  - destruct c as [[c0 c1] c2], a; reflexivity.
Qed.

(** X8.  Every multi-axis shift is the succession of the single-axis shifts
    it names: the coordinates move by the same amounts, the circuit is the
    concatenation of theirs in the order X, Y, Z, and a shift moves each
    coordinate by 0 or pi/2.  The table phases multiply accordingly for
    "X,Z", "X,Y" and "X,Y,Z"; for "Y,Z shift" the table has -1 where the
    product of the "Y shift" and "Z shift" phases is 1. *)
Theorem shifts_compose (c : coord) :
  ((apply_shift YZ_shift c).1.1 = (apply_shift Z_shift (apply_shift Y_shift c).1.1).1.1
   /\ (apply_shift XZ_shift c).1.1 = (apply_shift Z_shift (apply_shift X_shift c).1.1).1.1
   /\ (apply_shift XY_shift c).1.1 = (apply_shift Y_shift (apply_shift X_shift c).1.1).1.1
   /\ (apply_shift XYZ_shift c).1.1
      = (apply_shift Z_shift
           (apply_shift Y_shift (apply_shift X_shift c).1.1).1.1).1.1)
  /\ (data (apply_shift YZ_shift c).1.2
      = data (apply_shift Y_shift c).1.2 ++ data (apply_shift Z_shift c).1.2
     /\ data (apply_shift XZ_shift c).1.2
        = data (apply_shift X_shift c).1.2 ++ data (apply_shift Z_shift c).1.2
     /\ data (apply_shift XY_shift c).1.2
        = data (apply_shift X_shift c).1.2 ++ data (apply_shift Y_shift c).1.2
     /\ data (apply_shift XYZ_shift c).1.2
        = data (apply_shift X_shift c).1.2 ++ data (apply_shift Y_shift c).1.2
          ++ data (apply_shift Z_shift c).1.2)
  /\ (forall name i,
        coord_get (apply_shift name c).1.1 i = coord_get c i
        \/ coord_get (apply_shift name c).1.1 i = PI / 2 + coord_get c i)
  /\ ((shift_options XZ_shift).1.2
      = phase_mul (shift_options X_shift).1.2 (shift_options Z_shift).1.2
     /\ (shift_options XY_shift).1.2
        = phase_mul (shift_options X_shift).1.2 (shift_options Y_shift).1.2
     /\ (shift_options XYZ_shift).1.2
        = phase_mul (shift_options X_shift).1.2
            (phase_mul (shift_options Y_shift).1.2 (shift_options Z_shift).1.2)
     /\ (shift_options YZ_shift).1.2 = (-1, 0)%Z
     /\ phase_mul (shift_options Y_shift).1.2 (shift_options Z_shift).1.2 = (1, 0)%Z).
Proof.
  destruct c as [[c0 c1] c2].
  split; [|split; [|split]].
  - repeat split; apply coord_eq; simpl; lra.
  - repeat split; reflexivity.
  - intros name i. destruct name, i as [|[|i]]; simpl; first [left; lra | right; lra].
  - repeat split; reflexivity.
Qed.

(** ** [cheapest_container] *)

Lemma Qlt_bool_iff (a b : Q) : Qlt_bool a b = true <-> (a < b)%Q.
Proof.
  unfold Qlt_bool. rewrite negb_true_iff. split.
  - intros H. apply Qnot_le_lt. intros Hle. apply Qle_bool_iff in Hle. congruence.
  - intros H. destruct (Qle_bool b a) eqn:E; [|reflexivity].
    apply Qle_bool_iff in E. exfalso. exact (Qlt_not_le _ _ H E).
Qed.

Section CheapestContainerProperties.

Variable Polytope : Type.
Variable polytope_cost : Polytope -> Q.
Variable contains : Polytope -> Polytope -> bool.

#[local] Abbreviation cheapest_container_from :=
  (cheapest_container_from Polytope polytope_cost contains).
#[local] Abbreviation cheapest_container :=
  (cheapest_container Polytope polytope_cost contains).

#[local] Abbreviation among_containers := (among_containers Polytope contains).

(** What the loop returns from a state in which [best_cost] is the cost of
    [working_polytope]. *)
Lemma cheapest_container_from_spec (rest : list Polytope) (point : Polytope)
    (working : option Polytope) (best : option Q) :
  best = polytope_cost <$> working ->
  match cheapest_container_from rest point working best with
  | None => working = None /\ Forall (fun q => contains q point = false) rest
  | Some w =>
      (working = Some w
       /\ among_containers point (fun q => (polytope_cost w <= polytope_cost q)%Q) rest)
      \/ (exists l1 l2, rest = l1 ++ w :: l2
            /\ contains w point = true
            /\ below_best (polytope_cost w) best = true
            /\ among_containers point
                 (fun q => (polytope_cost w < polytope_cost q)%Q) l1
            /\ among_containers point
                 (fun q => (polytope_cost w <= polytope_cost q)%Q) l2)
  end.
Proof.
  unfold among_containers.
  revert working best. induction rest as [|p rest IH]; intros working best Hst.
  - cbn. destruct working as [w|]; [left|]; auto.
  - cbn [cheapest_container_from].
    destruct (below_best (polytope_cost p) best) eqn:Hb;
      destruct (contains p point) eqn:Hc; cbn [andb].
    + specialize (IH (Some p) (Some (polytope_cost p)) eq_refl).
      destruct (cheapest_container_from rest point (Some p) (Some (polytope_cost p)))
        as [w|]; [|destruct IH; discriminate].
      right. destruct IH as [[Hw Hall]|(l1 & l2 & -> & Hcw & Hlt & H1 & H2)].
      * injection Hw as <-. exists [], rest.
        split; [reflexivity|]. split; [assumption|]. split; [assumption|].
        split; [constructor|assumption].
      * exists (p :: l1), l2. cbn in Hlt. apply Qlt_bool_iff in Hlt.
        split; [reflexivity|]. split; [assumption|]. split; [|split; [|assumption]].
        -- destruct best as [b|]; [|reflexivity]. cbn in Hb |- *.
           apply Qlt_bool_iff in Hb. apply Qlt_bool_iff.
           eapply Qlt_trans; eassumption.
        -- constructor; auto.
    + specialize (IH working best Hst).
      destruct (cheapest_container_from rest point working best) as [w|].
      * destruct IH as [[Hw Hall]|(l1 & l2 & -> & Hcw & Hlt & H1 & H2)].
        -- left. split; [assumption|]. constructor; [congruence|assumption].
        -- right. exists (p :: l1), l2.
           split; [reflexivity|]. split; [assumption|]. split; [assumption|].
           split; [|assumption]. constructor; [congruence|assumption].
      * destruct IH as [Hw Hall]. split; [assumption|]. constructor; assumption.
    + specialize (IH working best Hst).
      destruct (cheapest_container_from rest point working best) as [w|].
      * destruct IH as [[Hw Hall]|(l1 & l2 & -> & Hcw & Hlt & H1 & H2)].
        -- left. split; [assumption|]. constructor; [|assumption].
           intros _. subst working best. cbn in Hb.
           apply Qnot_lt_le. intros Hlt. apply Qlt_bool_iff in Hlt. congruence.
        -- right. exists (p :: l1), l2.
           split; [reflexivity|]. split; [assumption|]. split; [assumption|].
           split; [|assumption]. constructor; [|assumption]. intros _.
           destruct best as [b|]; [|discriminate]. cbn in Hb, Hlt.
           apply Qlt_bool_iff in Hlt.
           eapply Qlt_le_trans; [eassumption|].
           apply Qnot_lt_le. intros Hlt'. apply Qlt_bool_iff in Hlt'. congruence.
      * destruct IH as [-> Hall]. subst best. discriminate.
    + specialize (IH working best Hst).
      destruct (cheapest_container_from rest point working best) as [w|].
      * destruct IH as [[Hw Hall]|(l1 & l2 & -> & Hcw & Hlt & H1 & H2)].
        -- left. split; [assumption|]. constructor; [congruence|assumption].
        -- right. exists (p :: l1), l2.
           split; [reflexivity|]. split; [assumption|]. split; [assumption|].
           split; [|assumption]. constructor; [congruence|assumption].
      * destruct IH as [Hw Hall]. split; [assumption|]. constructor; assumption.
Qed.

(** X9.  [cheapest_container] returns None exactly when no polytope of the
    coverage set contains the point polytope; otherwise it returns a member
    of the coverage set that contains it, is strictly cheaper than every
    container listed before it and at most as dear as every container listed
    after it: the first of the cheapest containers. *)
Theorem cheapest_container_first_cheapest (coverage_set : list Polytope)
    (point_polytope : Polytope) :
  (cheapest_container coverage_set point_polytope = None
   <-> Forall (fun q => contains q point_polytope = false) coverage_set)
  /\ (forall w, cheapest_container coverage_set point_polytope = Some w ->
        exists before after,
          coverage_set = before ++ w :: after
          /\ contains w point_polytope = true
          /\ among_containers point_polytope
               (fun q => (polytope_cost w < polytope_cost q)%Q) before
          /\ among_containers point_polytope
               (fun q => (polytope_cost w <= polytope_cost q)%Q) after).
Proof.
  pose proof (cheapest_container_from_spec coverage_set point_polytope None None eq_refl)
    as H.
  unfold cheapest_container.
  destruct (cheapest_container_from coverage_set point_polytope None None) as [w|].
  - destruct H as [[Hw _]|(l1 & l2 & -> & Hc & _ & H1 & H2)]; [discriminate|].
    split.
    + split; [discriminate|]. intros Hall. exfalso.
      apply Forall_app in Hall as [_ Hall]. apply Forall_cons in Hall as [Hw _].
      congruence.
    + intros w' [= <-]. exists l1, l2. auto.
  - destruct H as [_ Hall]. split; [split; auto|discriminate].
Qed.

End CheapestContainerProperties.

(** ** Reading a coordinate off the equalities *)

(** X10.  [next_solved_coordinate j] returns the solution x of
    [c + a x = 0] for the first row whose coefficient a of the variable j is
    not zero, whatever the other coefficients of that row are; it raises
    StopIteration exactly when every row has a zero coefficient there, and
    otherwise only IndexError (a row too short to hold the coefficient). *)
Theorem next_solved_coordinate_solves (j : nat) (eqs : list (list Q)) :
  (forall x, next_solved_coordinate j eqs = Return x ->
     exists before eq after c a,
       eqs = before ++ eq :: after
       /\ Forall (zero_coefficient j) before
       /\ eq !! 0%nat = Some c /\ eq !! (1 + j)%nat = Some a /\ ~ (a == 0)%Q
       /\ (c + a * x == 0)%Q)
  /\ (next_solved_coordinate j eqs = Raise StopIteration
      <-> Forall (zero_coefficient j) eqs)
  /\ (forall e, next_solved_coordinate j eqs = Raise e ->
        e = StopIteration \/ e = IndexError).
Proof.
  induction eqs as [|eq rest (IHx & IHstop & IHe)].
  - split; [discriminate|]. split; [split; [constructor|reflexivity]|].
    intros e [= <-]. left. reflexivity.
  - cbn [next_solved_coordinate]. unfold index.
    destruct (eq !! (1 + j)%nat) as [a|] eqn:Ha; cbn [mbind result_bind].
    2:{ split; [discriminate|]. split.
        - split; [discriminate|]. intros H. apply Forall_cons in H as [(a & Ha' & _) _].
          congruence.
        - intros e [= <-]. right. reflexivity. }
    destruct (Qeq_bool a 0) eqn:Hz.
    + apply Qeq_bool_iff in Hz.
      assert (Hrow : zero_coefficient j eq) by (exists a; auto).
      split; [|split].
      * intros x Hx. destruct (IHx x Hx) as (before & eq' & after & c & a' & -> & H).
        exists (eq :: before), eq', after, c, a'.
        split; [reflexivity|]. destruct H as (Hb & H). split; [constructor; assumption|].
        exact H.
      * rewrite IHstop. split; [intros H; constructor; assumption|].
        intros H. apply Forall_cons in H as [_ H]. exact H.
      * exact IHe.
    + assert (Hnz : ~ (a == 0)%Q).
      { intros H. apply Qeq_bool_iff in H. congruence. }
      destruct (eq !! 0%nat) as [c|] eqn:Hc; cbn [mbind result_bind].
      2:{ destruct eq; discriminate. }
      split; [|split].
      * intros x [= <-]. exists [], eq, rest, c, a.
        split; [reflexivity|]. split; [constructor|].
        split; [assumption|]. split; [assumption|]. split; [assumption|].
        field. exact Hnz.
      * split; [discriminate|]. intros H.
        apply Forall_cons in H as [(a' & Ha' & Hz') _].
        rewrite Ha in Ha'. injection Ha' as <-. contradiction.
      * discriminate.
Qed.

(** ** The shared axis and the two others *)

Lemma find_overlap_in pairs (s t : coord) (i j : nat) :
  find_overlap pairs s t = Some (i, j) ->
  In (i, j) pairs
  /\ nearp (coord_get s i) (coord_get t j) PI nearp_default_epsilon = true.
Proof.
  induction pairs as [|[i' j'] pairs IH]; cbn [find_overlap]; [discriminate|].
  destruct (nearp (coord_get s i') (coord_get t j') PI nearp_default_epsilon) eqn:Hn.
  - intros [= <- <-]. split; [left; reflexivity|exact Hn].
  - intros H. destruct (IH H) as [Hin Hnear]. split; [right; exact Hin|exact Hnear].
Qed.

Lemma other_axes_in_range (shared : nat) :
  (shared < 3)%nat ->
  exists first second,
    other_axes shared = Return (first, second)
    /\ In (canonical_rotation_circuit (Z.of_nat first) (Z.of_nat second))
         ascending_rotations.
Proof.
  intros H. destruct shared as [|[|[|n]]]; [| | |lia].
  - exists 1%nat, 2%nat. split; [reflexivity|]. left. reflexivity.
  - exists 0%nat, 2%nat. split; [reflexivity|]. right. left. reflexivity.
  - exists 0%nat, 1%nat. split; [reflexivity|]. right. right. left. reflexivity.
Qed.

Lemma axis_pairs_in_range (i j : nat) :
  In (i, j) axis_pairs -> (i < 3)%nat /\ (j < 3)%nat.
Proof.
  unfold axis_pairs. cbn [In].
  intros H; repeat (destruct H as [[= <- <-]|H]; [lia|]). contradiction.
Qed.

Lemma local_rotation_inverse (l : list Instruction) :
  Forall is_local_rotation l ->
  Forall is_local_rotation (rev (map instruction_inverse l)).
Proof.
  intros H. apply Forall_rev. apply Forall_map.
  eapply Forall_impl; [exact H|].
  intros [g w]. unfold is_local_rotation, instruction_inverse. cbn [fst snd].
  destruct g; auto.
Qed.

Lemma interleaved_wrap natives (before l after : list Instruction) :
  Forall is_local_rotation before -> Forall is_local_rotation after ->
  interleaved natives l -> interleaved natives (before ++ l ++ after).
Proof.
  intros Hb Ha H. revert before Hb.
  induction H as [l Hl|native natives l rest Hl _ IH]; intros before Hb.
  - constructor. repeat (apply Forall_app; split); assumption.
  - replace (before ++ (l ++ data native ++ rest) ++ after)
      with ((before ++ l) ++ data native ++ ([] ++ rest ++ after))
      by (rewrite <- !app_assoc; reflexivity).
    constructor; [apply Forall_app; split; assumption|].
    apply IH. constructor.
Qed.

Ltac local_rotations :=
  repeat (apply Forall_cons_2; [cbn; auto|]); apply Forall_nil_2.

Lemma canonical_rotation_circuit_local (first_index second_index : Z) :
  Forall is_local_rotation (data (canonical_rotation_circuit first_index second_index)).
Proof.
  unfold canonical_rotation_circuit.
  repeat case_decide; cbn [append data empty_circuit app]; local_rotations.
Qed.

Lemma apply_reflection_local (name : reflection_name) (c : coord) :
  Forall is_local_rotation (data (apply_reflection name c).1.2).
Proof.
  destruct c as [[c0 c1] c2], name; cbn; local_rotations.
Qed.

Lemma apply_shift_local (name : shift_name) (c : coord) :
  Forall is_local_rotation (data (apply_shift name c).1.2).
Proof.
  destruct c as [[c0 c1] c2], name; cbn; local_rotations.
Qed.

Lemma rz_pair_local (a b : R) : Forall is_local_rotation (rz_pair a b).
Proof. unfold rz_pair. local_rotations. Qed.

Lemma ascending_not_descending (qc : QuantumCircuit) :
  In qc ascending_rotations -> ~ In qc descending_rotations.
Proof.
  unfold ascending_rotations, descending_rotations. cbn [In].
  intros [<-|[<-|[<-|Hf] ] ] [H|[H|[H|Hf'] ] ]; try contradiction;
    apply (f_equal data) in H; revert H;
    unfold canonical_rotation_circuit;
    repeat (rewrite decide_False by discriminate);
    repeat (rewrite decide_True by reflexivity);
    cbn [append data empty_circuit app]; discriminate.
Qed.

Lemma unit_phase_cases (z : phase) :
  phase_norm z = 1%Z ->
  z = (1, 0)%Z \/ z = (-1, 0)%Z \/ z = (0, 1)%Z \/ z = (0, -1)%Z.
Proof.
  destruct z as [a b]. unfold phase_norm. cbn [fst snd]. intros H.
  assert (Ha : (-1 <= a <= 1)%Z) by nia.
  assert (Hb : (-1 <= b <= 1)%Z) by nia.
  assert (Ha' : (a = -1 \/ a = 0 \/ a = 1)%Z) by lia.
  assert (Hb' : (b = -1 \/ b = 0 \/ b = 1)%Z) by lia.
  destruct Ha' as [Ha'|[Ha'|Ha']], Hb' as [Hb'|[Hb'|Hb']]; subst a b;
    try discriminate; auto.
Qed.

Lemma np_log_imag_minus_one : np_log_imag (-1, 0)%Z = PI.
Proof.
  unfold np_log_imag, np_arctan2. simpl.
  rewrite decide_False by lra. rewrite decide_True by lra.
  rewrite decide_True by lra. unfold Rdiv. rewrite Rmult_0_l, atan_0. lra.
Qed.

Lemma np_log_imag_j : np_log_imag (0, 1)%Z = PI / 2.
Proof.
  unfold np_log_imag, np_arctan2. simpl.
  rewrite decide_False by lra. rewrite decide_False by lra.
  rewrite decide_True by lra. reflexivity.
Qed.

Lemma unit_phase_angle (z : phase) :
  phase_norm z = 1%Z ->
  exists k : Z, (-2 <= k <= 2)%Z /\ - np_log_imag z = IZR k * (PI / 2).
Proof.
  intros H. destruct (unit_phase_cases z H) as [->|[->|[->| -> ] ] ].
  - exists 0%Z. split; [lia|]. fold phase_one. rewrite np_log_imag_one. lra.
  - exists (-2)%Z. split; [lia|]. rewrite np_log_imag_minus_one. lra.
  - exists (-1)%Z. split; [lia|]. rewrite np_log_imag_j. lra.
  - exists 1%Z. split; [lia|]. rewrite np_log_imag_minus_j. lra.
Qed.

Lemma next_solved_coordinate_raises (j : nat) (eqs : list (list Q)) (e : exn) :
  next_solved_coordinate j eqs = Raise e -> e = StopIteration \/ e = IndexError.
Proof.
  induction eqs as [|eq rest IH]; cbn [next_solved_coordinate].
  - intros [= <-]. left. reflexivity.
  - unfold index. destruct (eq !! (1 + j)%nat) as [a|]; cbn [mbind result_bind].
    2:{ intros [= <-]. right. reflexivity. }
    destruct (Qeq_bool a 0); [exact IH|].
    destruct (eq !! 0%nat); cbn [mbind result_bind]; [discriminate|].
    intros [= <-]. right. reflexivity.
Qed.

Lemma first_success_two_outcomes {A B} (f : A -> result (option B)) (l : list A)
    (e : exn) :
  Forall (fun a => f a = Return None \/ f a = Raise e) l ->
  (first_success f l = Raise e /\ Exists (fun a => f a = Raise e) l)
  \/ (first_success f l = Return None /\ Forall (fun a => f a = Return None) l).
Proof.
  induction 1 as [|a l [Ha|Ha] _ IH]; cbn [first_success].
  - right. split; [reflexivity|constructor].
  - rewrite Ha. cbn [mbind result_bind].
    destruct IH as [[H1 H2]|[H1 H2]]; [left|right]; (split; [exact H1|]).
    + apply Exists_cons_tl. exact H2.
    + constructor; assumption.
  - rewrite Ha. cbn [mbind result_bind]. left. split; [reflexivity|].
    apply Exists_cons_hd. exact Ha.
Qed.

(** ** Properties of the synthesis *)

Section SynthesisProperties.

Variable alcove_to_positive_canonical_coordinate : Q -> Q -> Q -> coord.
Variable epsilon : R.
Variable canonical_matrix : R -> R -> R -> matrix.
Variable rz_matrix : R -> matrix.

#[local] Abbreviation operation_coordinate :=
  (operation_coordinate alcove_to_positive_canonical_coordinate).
#[local] Abbreviation build_coordinate_table :=
  (build_coordinate_table alcove_to_positive_canonical_coordinate).
#[local] Abbreviation xx_type := (xx_type epsilon).
#[local] Abbreviation all_xx_type := (all_xx_type epsilon).
#[local] Abbreviation catalog_tables :=
  (catalog_tables alcove_to_positive_canonical_coordinate epsilon).
#[local] Abbreviation same_entry := (same_entry alcove_to_positive_canonical_coordinate).
#[local] Abbreviation hop_source := (hop_source alcove_to_positive_canonical_coordinate).
#[local] Abbreviation hop_target := (hop_target alcove_to_positive_canonical_coordinate).
#[local] Abbreviation try_combination := (try_combination canonical_matrix rz_matrix).
#[local] Abbreviation combination_body := (combination_body canonical_matrix rz_matrix).
#[local] Abbreviation shift_loop := (shift_loop canonical_matrix rz_matrix).
#[local] Abbreviation reflection_loop := (reflection_loop canonical_matrix rz_matrix).
#[local] Abbreviation search_hop :=
  (search_hop alcove_to_positive_canonical_coordinate canonical_matrix rz_matrix).
#[local] Abbreviation later_hop :=
  (later_hop alcove_to_positive_canonical_coordinate canonical_matrix rz_matrix).
#[local] Abbreviation later_hops :=
  (later_hops alcove_to_positive_canonical_coordinate canonical_matrix rz_matrix).
#[local] Abbreviation xx_circuit_from_decomposition :=
  (xx_circuit_from_decomposition alcove_to_positive_canonical_coordinate epsilon
     canonical_matrix rz_matrix).

(** *** The search is a first success over the 32 combinations *)

Lemma shift_loop_first_success table target operation rn reflected names :
  shift_loop table target operation rn reflected names =
    first_success (try_combination table target operation rn reflected) names.
Proof.
  induction names as [|sn names IH]; simpl; [reflexivity|].
  rewrite IH. reflexivity.
Qed.

Lemma reflection_loop_first_success table source target operation names :
  reflection_loop table source target operation names =
    first_success (combination_body table source target operation)
                  (list_prod names shift_names).
Proof.
  induction names as [|rn names IH]; [reflexivity|].
  cbn [reflection_loop list_prod].
  rewrite first_success_app, first_success_map, shift_loop_first_success, IH.
  reflexivity.
Qed.

Lemma search_hop_first_success table (h : hop) :
  search_hop table h =
    first_success (combination_body table (hop_source h) (hop_target h) h.1.2)
                  all_combinations.
Proof.
  destruct h as [[[[sx sy] sz] operation] [[tx ty] tz]].
  unfold search_hop, hop_source, hop_target. cbn [fst snd].
  apply reflection_loop_first_success.
Qed.

Lemma find_overlap_find pairs (s t : coord) :
  find_overlap pairs s t =
    find (fun p => nearp (coord_get s p.1) (coord_get t p.2) PI nearp_default_epsilon)
         pairs.
Proof.
  induction pairs as [|[i j] pairs IH]; simpl; [reflexivity|].
  rewrite IH. reflexivity.
Qed.


(** *** Synthesis over a checked catalog *)

Lemma build_gate_table_total ops (t : gmap string coord)
    (g : gmap string QuantumCircuit) table :
  build_coordinate_table ops t = Return table ->
  exists gates, build_gate_table ops g = Return gates.
Proof.
  revert t g. induction ops as [|op ops IH]; simpl; intros t g H; [eauto|].
  destruct (index (operations op) 0) as [name|e]; simpl in *; [|discriminate].
  destruct (operation_coordinate op) as [c|e]; simpl in *; [|discriminate].
  eauto.
Qed.

Lemma synthesis_with_tables decomposition ops table gates :
  catalog_tables ops table gates ->
  xx_circuit_from_decomposition decomposition ops =
    match decomposition with
    | [] => Return empty_circuit
    | first :: rest =>
        st ← first_hop gates first;
        st ← later_hops table gates st rest;
        Return (mkCircuit (data (st_circuit st)) (- np_log_imag (st_phase st)))
    end.
Proof.
  intros (Hc & Hx & Hg). unfold xx_circuit_from_decomposition.
  rewrite Hc. simpl. rewrite Hx. simpl. rewrite Hg. reflexivity.
Qed.

Lemma synthesis_assertion decomposition ops table :
  build_coordinate_table ops ∅ = Return table ->
  all_xx_type table = false ->
  xx_circuit_from_decomposition decomposition ops = Raise AssertionError.
Proof.
  intros Hc Hx. unfold xx_circuit_from_decomposition.
  rewrite Hc. simpl. rewrite Hx. reflexivity.
Qed.

Lemma synthesis_inversion decomposition ops out :
  xx_circuit_from_decomposition decomposition ops = Return out ->
  exists table gates, catalog_tables ops table gates.
Proof.
  unfold xx_circuit_from_decomposition, catalog_tables.
  destruct (build_coordinate_table ops ∅) as [table|e]; simpl; [|discriminate].
  destruct (all_xx_type table) eqn:Hx; simpl; [|discriminate].
  destruct (build_gate_table ops ∅) as [gates|e]; simpl; [|discriminate].
  intros _. exists table, gates. auto.
Qed.

Lemma later_hops_app table gates st l1 l2 :
  later_hops table gates st (l1 ++ l2) =
    st' ← later_hops table gates st l1; later_hops table gates st' l2.
Proof.
  revert st. induction l1 as [|h l1 IH]; intros st; simpl; [reflexivity|].
  destruct (later_hop table gates st h) as [st'|e]; simpl; [apply IH|reflexivity].
Qed.

Lemma later_hop_exhausted table gates st h :
  Forall (fun c => combination_body table (hop_source h) (hop_target h) h.1.2 c
                   = Return None) all_combinations ->
  later_hop table gates st h = Raise NoBacksolution.
Proof.
  intros Hskip. unfold later_hop. rewrite search_hop_first_success.
  rewrite (first_success_skip _ _ Hskip). reflexivity.
Qed.

(** C3.  When a hop after the first finds every one of the 32 combinations
    skipped (no coinciding axis pair, or a NaN in the backsolve), synthesis
    raises [NoBacksolution]: no circuit is returned and no other error. *)
Theorem exhausted_hop_raises_NoBacksolution ops table gates first before h after st0 st :
  catalog_tables ops table gates ->
  first_hop gates first = Return st0 ->
  later_hops table gates st0 before = Return st ->
  Forall (fun c => combination_body table (hop_source h) (hop_target h) h.1.2 c
                   = Return None) all_combinations ->
  later_hop table gates st h = Raise NoBacksolution
  /\ xx_circuit_from_decomposition (first :: before ++ h :: after) ops
     = Raise NoBacksolution.
Proof.
  intros Hcat Hfirst Hbefore Hskip.
  assert (Hhop : later_hop table gates st h = Raise NoBacksolution)
    by (apply later_hop_exhausted; exact Hskip).
  split; [exact Hhop|].
  rewrite (synthesis_with_tables _ _ _ _ Hcat), Hfirst. simpl.
  rewrite later_hops_app, Hbefore. simpl. rewrite Hhop. reflexivity.
Qed.

(** *** What a found solution holds *)

Lemma try_combination_solution table target operation rn reflected sn sol :
  try_combination table target operation rn reflected sn = Return (Some sol) ->
  source_reflection_name sol = rn /\ source_shift_name sol = sn
  /\ source_reflection sol = reflected.1.2
  /\ reflection_phase_shift sol = reflected.2
  /\ source_shift sol = (apply_shift sn reflected.1.1).1.2
  /\ shift_phase_shift sol = (apply_shift sn reflected.1.1).2.
Proof.
  unfold try_combination.
  destruct reflected as [[rc rq] rp]. cbn [fst snd].
  destruct (apply_shift sn rc) as [[sc sq] sp]. cbn [fst snd].
  destruct (find_overlap axis_pairs sc target) as [[i j]|]; [|discriminate].
  destruct (other_axes i) as [[sf ss]|e]; simpl; [|discriminate].
  destruct (other_axes j) as [[tf ts]|e]; simpl; [|discriminate].
  destruct (getitem table operation) as [c|e]; simpl; [|discriminate].
  destruct (decompose_xxyy_into_xxyy_xx _ _ _ _ _ _ _)
    as [[[[[[r|] [s|]] [u|]] [v|]] [x|]] [y|]]; try discriminate.
  intros [= <-]. simpl. auto 10.
Qed.

Lemma try_combination_permutes table target operation rn reflected sn sol i j sf ss tf ts :
  try_combination table target operation rn reflected sn = Return (Some sol) ->
  find_overlap axis_pairs (apply_shift sn reflected.1.1).1.1 target = Some (i, j) ->
  other_axes i = Return (sf, ss) ->
  other_axes j = Return (tf, ts) ->
  permute_source_for_overlap sol
  = canonical_rotation_circuit (Z.of_nat sf) (Z.of_nat ss)
  /\ permute_target_for_overlap sol
     = canonical_rotation_circuit (Z.of_nat tf) (Z.of_nat ts).
Proof.
  unfold try_combination.
  destruct reflected as [[rc rq] rp]. cbn [fst snd].
  destruct (apply_shift sn rc) as [[sc sq] sp]. cbn [fst snd].
  intros H Ho Hi Hj. revert H. rewrite Ho, Hi. cbn [mbind result_bind].
  rewrite Hj. cbn [mbind result_bind].
  destruct (getitem table operation) as [c|e]; cbn [mbind result_bind]; [|discriminate].
  destruct (decompose_xxyy_into_xxyy_xx _ _ _ _ _ _ _)
    as [[[[[[r|] [s|]] [u|]] [v|]] [x|]] [y|]]; try discriminate.
  intros [= <-]. split; reflexivity.
Qed.

Lemma search_hop_solution table h sol :
  search_hop table h = Return (Some sol) ->
  In (source_reflection_name sol, source_shift_name sol) all_combinations
  /\ reflection_phase_shift sol = (reflection_options (source_reflection_name sol)).1.2
  /\ shift_phase_shift sol = (shift_options (source_shift_name sol)).1.2.
Proof.
  rewrite search_hop_first_success. intros H.
  destruct (first_success_found _ _ _ H) as (l1 & [rn sn] & l2 & Hl & _ & Hok).
  unfold combination_body in Hok. cbn [fst snd] in Hok.
  destruct (try_combination_solution _ _ _ _ _ _ _ Hok) as (-> & -> & _ & Hr & _ & Hs).
  rewrite Hr, Hs, apply_reflection_phase, apply_shift_phase.
  split; [|split; reflexivity].
  rewrite Hl. apply in_or_app. right. left. reflexivity.
Qed.

Lemma first_hop_running_phase gates h st :
  first_hop gates h = Return st -> st_phase st = first_hop_phase h.
Proof.
  destruct h as [[source operation] target].
  unfold first_hop, first_hop_phase. cbn [fst snd].
  destruct (Qle_bool target.1.1 (1 # 4)).
  - destruct (getitem gates operation); simpl; [|discriminate]. intros [= <-]. reflexivity.
  - cbn. destruct (getitem gates operation); simpl; [|discriminate].
    intros [= <-]. reflexivity.
Qed.

Lemma later_hops_running_phase table gates st hops st' :
  later_hops table gates st hops = Return st' ->
  exists sols,
    Forall2 (fun h sol => search_hop table h = Return (Some sol)) hops sols
    /\ st_phase st' =
         fold_left phase_mul
           (map (fun sol => phase_mul (reflection_phase_shift sol) (shift_phase_shift sol))
                sols)
           (st_phase st).
Proof.
  revert st. induction hops as [|h hops IH]; intros st; simpl.
  - intros [= <-]. exists []. split; [constructor|reflexivity].
  - unfold later_hop at 1.
    destruct (search_hop table h) as [[sol|]|e] eqn:Hs; simpl; try discriminate.
    destruct (getitem gates h.1.2) as [native|e]; simpl; [|discriminate].
    intros H. destruct (IH _ H) as (sols & Hall & Hphase).
    exists (sol :: sols). split; [constructor; assumption|]. exact Hphase.
Qed.


(** C1 (as amended).  A later hop turns the circuit so far into: the inverse
    target axis rotation; Rz(2x), Rz(2y); the native fragment; Rz(2u),
    Rz(2v); then the source axis rotation, the source reflection, the
    previous circuit, the inverse source reflection, the source shift (once,
    with no inverse) and the inverse source axis rotation; then Rz(2r),
    Rz(2s); and the target axis rotation.  The symmetry operations wrap the
    previous circuit only. *)
Theorem hop_circuit_order table gates (st : RunningState) (h : hop)
    (qc native : QuantumCircuit) (sol : Solution) :
  later_hop table gates st h =
    (found ← search_hop table h;
     match found with
     | None => Raise NoBacksolution
     | Some sol =>
         native ← getitem gates h.1.2;
         Return (mkState (assemble_hop (st_circuit st) native sol)
                   (phase_mul (st_phase st)
                      (phase_mul (reflection_phase_shift sol) (shift_phase_shift sol))))
     end)
  /\ data (assemble_hop qc native sol) =
       data (inverse (permute_target_for_overlap sol))
       ++ [(RZGate (2 * angle_x sol), [0%nat]); (RZGate (2 * angle_y sol), [1%nat])]
       ++ data native
       ++ [(RZGate (2 * angle_u sol), [0%nat]); (RZGate (2 * angle_v sol), [1%nat])]
       ++ data (permute_source_for_overlap sol)
       ++ data (source_reflection sol)
       ++ data qc
       ++ data (inverse (source_reflection sol))
       ++ data (source_shift sol)
       ++ data (inverse (permute_source_for_overlap sol))
       ++ [(RZGate (2 * angle_r sol), [0%nat]); (RZGate (2 * angle_s sol), [1%nat])]
       ++ data (permute_target_for_overlap sol).
Proof.
  split.
  - reflexivity.
  - rewrite assemble_hop_data. reflexivity.
Qed.

(** *** One-hop paths *)

Lemma single_hop_direct ops table gates (h : hop) (native : QuantumCircuit) :
  catalog_tables ops table gates ->
  gates !! h.1.2 = Some native ->
  Qle_bool h.2.1.1 (1 # 4) = true ->
  first_hop gates h = Return (mkState (compose empty_circuit native) phase_one)
  /\ xx_circuit_from_decomposition [h] ops = Return (mkCircuit (data native) 0).
Proof.
  intros Hcat Hnative Hle.
  destruct h as [[source operation] target]. cbn [fst snd] in *.
  rewrite (synthesis_with_tables _ _ _ _ Hcat).
  unfold first_hop, getitem. rewrite Hnative, Hle.
  split; [reflexivity|].
  simpl. rewrite np_log_imag_one, Ropp_0. reflexivity.
Qed.

Lemma single_hop_wrapped ops table gates (h : hop) (native : QuantumCircuit) :
  catalog_tables ops table gates ->
  gates !! h.1.2 = Some native ->
  Qle_bool h.2.1.1 (1 # 4) = false ->
  (exists st, first_hop gates h = Return st
     /\ data (st_circuit st) =
          [(RZGate PI, [0%nat])] ++ data native ++ [(RZGate (- PI), [0%nat])]
          ++ [(RXGate PI, [0%nat]); (RXGate PI, [1%nat])]
     /\ st_phase st = phase_mul phase_one (phase_mul (0, -1)%Z (1, 0)%Z))
  /\ xx_circuit_from_decomposition [h] ops =
       Return (mkCircuit
                 ([(RZGate PI, [0%nat])] ++ data native ++ [(RZGate (- PI), [0%nat])]
                  ++ [(RXGate PI, [0%nat]); (RXGate PI, [1%nat])])
                 (PI / 2)).
Proof.
  intros Hcat Hnative Hle.
  destruct h as [[source operation] target]. cbn [fst snd] in *.
  rewrite (synthesis_with_tables _ _ _ _ Hcat).
  unfold first_hop, getitem. rewrite Hnative, Hle.
  split.
  - eexists. split; [reflexivity|]. split; [|reflexivity].
    simpl. rewrite <- !app_assoc. reflexivity.
  - simpl. rewrite <- !app_assoc. simpl.
    replace (phase_mul phase_one (phase_mul (0, -1)%Z (1, 0)%Z)) with (0, -1)%Z
      by reflexivity.
    rewrite np_log_imag_minus_j, Ropp_involutive. reflexivity.
Qed.

(** C2 (as amended).  The parameter the code tests is the first component
    of the first hop's target.  At most 1/4: the native fragment is the
    circuit so far, and a one-hop path returns its instructions unchanged
    with phase angle 0, which is the raw native fragment exactly when that
    has phase 0.  Above 1/4 the fragment is wrapped: Rz(pi) on wire 0
    ("reflect XX, YY"), the fragment, the inverse reflection, then Rx(pi) on
    both wires ("X shift"); the running phase is 1 * (-1j * 1) and the phase
    angle returned is pi/2, which differs from the native fragment's own
    phase exactly when that is not pi/2. *)
Theorem first_hop_special_case ops table gates (h : hop) (native : QuantumCircuit) :
  catalog_tables ops table gates ->
  gates !! h.1.2 = Some native ->
  (Qle_bool h.2.1.1 (1 # 4) = true ->
     (exists st, first_hop gates h = Return st
        /\ st_circuit st = native /\ st_phase st = phase_one)
     /\ xx_circuit_from_decomposition [h] ops = Return (mkCircuit (data native) 0)
     /\ (xx_circuit_from_decomposition [h] ops = Return native
         <-> global_phase native = 0))
  /\ (Qle_bool h.2.1.1 (1 # 4) = false ->
     let wrapped :=
       [(RZGate PI, [0%nat])] ++ data native ++ [(RZGate (- PI), [0%nat])]
       ++ [(RXGate PI, [0%nat]); (RXGate PI, [1%nat])] in
     (exists st, first_hop gates h = Return st
        /\ data (st_circuit st) = wrapped
        /\ st_phase st = phase_mul phase_one
                           (phase_mul (shift_options X_shift).1.2
                                      (reflection_options reflect_XX_YY).1.2))
     /\ xx_circuit_from_decomposition [h] ops = Return (mkCircuit wrapped (PI / 2))
     /\ (forall out,
           xx_circuit_from_decomposition [h] ops = Return out ->
           (global_phase out <> global_phase native <-> global_phase native <> PI / 2))).
Proof.
  intros Hcat Hnative. split; intros Hle.
  - destruct (single_hop_direct ops table gates h native Hcat Hnative Hle) as [Hst Hout].
    split; [|split; [exact Hout|]].
    + eexists. split; [exact Hst|]. split; [|reflexivity].
      destruct native as [d p]. unfold compose. cbn [st_circuit data global_phase
        empty_circuit app]. f_equal. lra.
    + rewrite Hout. destruct native as [d p]. cbn [data global_phase]. split.
      * intros [= ->]. reflexivity.
      * intros ->. reflexivity.
  - cbn zeta.
    destruct (single_hop_wrapped ops table gates h native Hcat Hnative Hle) as [Hst Hout].
    split; [exact Hst|]. split; [exact Hout|].
    intros out. rewrite Hout. intros [= <-]. cbn [global_phase].
    split; intros H E; apply H; congruence.
Qed.

(** *** The example catalogs *)

Lemma example_coordinate_table (name : string) (x y z : Q) :
  build_coordinate_table [example_operation name x y z] ∅ =
    Return (<[name :=
                alcove_to_positive_canonical_coordinate
                  (- - x / 1)%Q (- - y / 1)%Q (- - z / 1)%Q]> ∅).
Proof. reflexivity. Qed.

Lemma example_operation_coordinate (name : string) (x y z : Q) :
  operation_coordinate (example_operation name x y z) =
    Return (alcove_to_positive_canonical_coordinate
              (- - x / 1)%Q (- - y / 1)%Q (- - z / 1)%Q).
Proof. reflexivity. Qed.

Lemma example_gate_table (name : string) (x y z : Q) :
  build_gate_table [example_operation name x y z] ∅ =
    Return (<[name := example_native_circuit name]> ∅).
Proof. reflexivity. Qed.

Lemma all_xx_type_singleton (name : string) (c : coord) :
  xx_type c -> all_xx_type (<[name := c]> ∅) = true.
Proof.
  intros Hc. apply bool_decide_eq_true.
  apply map_Forall_insert_2; [exact Hc|]. apply map_Forall_empty.
Qed.

Lemma try_combination_found table target operation rn reflected sn i j sf ss tf ts c p m :
  find_overlap axis_pairs (apply_shift sn reflected.1.1).1.1 target = Some (i, j) ->
  other_axes i = Return (sf, ss) ->
  other_axes j = Return (tf, ts) ->
  table !! operation = Some c ->
  (let a_target := coord_get target tf in
   let b_target := coord_get target ts in
   let a1 := coord_get (apply_shift sn reflected.1.1).1.1 sf in
   let b1 := coord_get (apply_shift sn reflected.1.1).1.1 ss in
   let a2 := coord_get c 0 in
   safe_arccos
     (cos (a1 - b1) ^ 2 * cos a2 ^ 2 + sin (a1 - b1) ^ 2 * sin a2 ^ 2
      - cos (a_target - b_target) ^ 2)
     (2 * cos (a1 - b1) * cos a2 * sin (a1 - b1) * sin a2) = Some p
   /\ safe_arccos
        (cos (a1 + b1) ^ 2 * cos a2 ^ 2 + sin (a1 + b1) ^ 2 * sin a2 ^ 2
         - cos (a_target + b_target) ^ 2)
        (2 * cos (a1 + b1) * cos a2 * sin (a1 + b1) * sin a2) = Some m) ->
  exists sol, try_combination table target operation rn reflected sn = Return (Some sol).
Proof.
  intros Hov Hi Hj Hc [Hp Hm]. unfold try_combination.
  destruct reflected as [[rc rq] rp]. cbn [fst snd] in *.
  destruct (apply_shift sn rc) as [[sc sq] sp]. cbn [fst snd] in *.
  rewrite Hov, Hi. cbn [mbind result_bind]. rewrite Hj. cbn [mbind result_bind].
  unfold getitem. rewrite Hc. cbn [mbind result_bind].
  destruct (decompose_defined canonical_matrix rz_matrix _ _ _ _ _ _ _ Hp Hm)
    as (r & s & x & y & ->).
  eauto.
Qed.

Lemma find_overlap_none (s t : coord) :
  (forall i j, (i < 3)%nat -> (j < 3)%nat ->
     nearp (coord_get s i) (coord_get t j) PI nearp_default_epsilon = false) ->
  find_overlap axis_pairs s t = None.
Proof.
  intros H. unfold axis_pairs, find_overlap.
  rewrite !H by lia. reflexivity.
Qed.

Lemma combination_body_no_overlap table source target operation c :
  find_overlap axis_pairs (apply_shift c.2 (apply_reflection c.1 source).1.1).1.1 target
  = None ->
  combination_body table source target operation c = Return None.
Proof.
  unfold combination_body, try_combination.
  destruct (apply_reflection c.1 source) as [[rc rq] rp]. cbn [fst snd].
  destruct (apply_shift c.2 rc) as [[sc sq] sp]. cbn [fst snd].
  intros ->. reflexivity.
Qed.

Lemma empty_path_with_tables ops table :
  build_coordinate_table ops ∅ = Return table ->
  all_xx_type table = true ->
  xx_circuit_from_decomposition [] ops = Return empty_circuit.
Proof.
  intros Hc Hx.
  destruct (build_gate_table_total ops ∅ ∅ table Hc) as [gates Hg].
  rewrite (synthesis_with_tables [] ops table gates); [reflexivity|].
  repeat split; assumption.
Qed.

(** C7 (as amended).  For every catalog whose coordinate table builds and
    passes the XX-type assertion, the empty path yields the empty circuit
    with phase angle 0. *)
Theorem empty_path_yields_empty_circuit ops table :
  build_coordinate_table ops ∅ = Return table ->
  all_xx_type table = true ->
  xx_circuit_from_decomposition [] ops = Return empty_circuit
  /\ data empty_circuit = [] /\ global_phase empty_circuit = 0.
Proof.
  intros Hc Hx. split.
  - apply (empty_path_with_tables ops table); assumption.
  - split; reflexivity.
Qed.

(** *** The coordinate table and shadowed entries *)

Lemma build_coordinate_table_app ops1 ops2 (t : gmap string coord) :
  build_coordinate_table (ops1 ++ ops2) t =
    t' ← build_coordinate_table ops1 t; build_coordinate_table ops2 t'.
Proof.
  revert t. induction ops1 as [|op ops1 IH]; intros t; simpl; [reflexivity|].
  destruct (index (operations op) 0) as [name|e]; simpl; [|reflexivity].
  destruct (operation_coordinate op) as [c|e]; simpl; [apply IH|reflexivity].
Qed.

Lemma build_coordinate_table_keeps ops (t table : gmap string coord) (name : string) :
  build_coordinate_table ops t = Return table ->
  Forall (fun op => index (operations op) 0 <> Return name) ops ->
  table !! name = t !! name.
Proof.
  revert t. induction ops as [|op ops IH]; intros t; simpl.
  - intros [= <-] _. reflexivity.
  - intros H Hall. inversion Hall as [|? ? Hop Hrest]; subst.
    destruct (index (operations op) 0) as [name'|e]; simpl in H; [|discriminate].
    destruct (operation_coordinate op) as [c|e]; simpl in H; [|discriminate].
    rewrite (IH _ H Hrest). apply lookup_insert_ne. congruence.
Qed.

Lemma build_coordinate_table_last before operation after (table : gmap string coord)
    (name : string) (c : coord) :
  build_coordinate_table (before ++ operation :: after) ∅ = Return table ->
  index (operations operation) 0 = Return name ->
  operation_coordinate operation = Return c ->
  Forall (fun op => index (operations op) 0 <> Return name) after ->
  table !! name = Some c.
Proof.
  intros H Hname Hc Hafter. rewrite build_coordinate_table_app in H.
  destruct (build_coordinate_table before ∅) as [t|e]; simpl in H; [|discriminate].
  rewrite Hname in H. simpl in H. rewrite Hc in H. simpl in H.
  rewrite (build_coordinate_table_keeps _ _ _ _ H Hafter). apply lookup_insert_eq.
Qed.

Lemma all_xx_type_lookup (table : gmap string coord) (name : string) (c : coord) :
  table !! name = Some c -> ~ xx_type c -> all_xx_type table = false.
Proof.
  intros Hl Hc. apply bool_decide_eq_false. intros Hall. apply Hc.
  exact (Hall name c Hl).
Qed.

(** C9 (as amended).  The XX-type assertion runs over the coordinate table
    of the whole catalog before the path is looked at: when the table builds,
    an entry that is not of XX type and that no later entry of the same name
    replaces makes synthesis fail the assertion for every path, the empty
    one and those that never use the entry included. *)
Theorem xx_assertion_precedes_path before operation after table name c decomposition :
  build_coordinate_table (before ++ operation :: after) ∅ = Return table ->
  index (operations operation) 0 = Return name ->
  operation_coordinate operation = Return c ->
  Forall (fun op => index (operations op) 0 <> Return name) after ->
  ~ xx_type c ->
  xx_circuit_from_decomposition decomposition (before ++ operation :: after)
  = Raise AssertionError
  /\ xx_circuit_from_decomposition [] (before ++ operation :: after)
     = Raise AssertionError.
Proof.
  intros Hbuild Hname Hc Hafter Hbad.
  assert (Hx : all_xx_type table = false).
  { eapply all_xx_type_lookup; [|exact Hbad].
    eapply build_coordinate_table_last; eassumption. }
  split; eapply synthesis_assertion; eassumption.
Qed.

(** *** Further properties of the hop loop *)

Lemma other_axes_raises (shared : nat) (e : exn) :
  other_axes shared = Raise e -> e = ValueError.
Proof.
  unfold other_axes.
  destruct (filter (fun x => x <> shared) [0; 1; 2]%nat) as [|a [|b [|c l]]];
    intros [= <-]; reflexivity.
Qed.

Lemma combination_body_raises table source target operation c (e : exn) :
  combination_body table source target operation c = Raise e ->
  e = ValueError \/ e = KeyError.
Proof.
  unfold combination_body, try_combination.
  destruct (apply_reflection c.1 source) as [[rc rq] rp].
  destruct (apply_shift c.2 rc) as [[sc sq] sp].
  destruct (find_overlap axis_pairs sc target) as [[i j]|]; [|discriminate].
  destruct (other_axes i) as [[sf ss]|e1] eqn:Hi; cbn [mbind result_bind].
  2:{ intros [= <-]. left. exact (other_axes_raises _ _ Hi). }
  destruct (other_axes j) as [[tf ts]|e2] eqn:Hj; cbn [mbind result_bind].
  2:{ intros [= <-]. left. exact (other_axes_raises _ _ Hj). }
  unfold getitem. destruct (table !! operation) as [c'|]; cbn [mbind result_bind].
  2:{ intros [= <-]. right. reflexivity. }
  destruct (decompose_xxyy_into_xxyy_xx _ _ _ _ _ _ _)
    as [[[[[[r|] [s|]] [u|]] [v|]] [x|]] [y|]]; discriminate.
Qed.

(** X1.  [NoBacksolution] comes out of a later hop only by exhaustion: every
    one of the 32 combinations was skipped. *)
Theorem NoBacksolution_only_on_exhaustion table gates (st : RunningState) (h : hop) :
  later_hop table gates st h = Raise NoBacksolution ->
  Forall (fun c => combination_body table (hop_source h) (hop_target h) h.1.2 c
                   = Return None) all_combinations.
Proof.
  unfold later_hop. rewrite search_hop_first_success.
  destruct (first_success _ all_combinations) as [[sol|]|e] eqn:Hs;
    cbn [mbind result_bind].
  - unfold getitem. destruct (gates !! h.1.2); cbn [mbind result_bind]; discriminate.
  - intros _. apply first_success_none. exact Hs.
  - intros [= ->].
    destruct (first_success_raises _ _ _ Hs) as (c & _ & Hc).
    destruct (combination_body_raises _ _ _ _ _ _ Hc); discriminate.
Qed.

Lemma fold_phase_unit (sols : list Solution) (z : phase) :
  phase_norm z = 1%Z ->
  Forall (fun sol => phase_norm (reflection_phase_shift sol) = 1%Z
                     /\ phase_norm (shift_phase_shift sol) = 1%Z) sols ->
  phase_norm
    (fold_left phase_mul
       (map (fun sol => phase_mul (reflection_phase_shift sol) (shift_phase_shift sol))
            sols) z) = 1%Z.
Proof.
  intros Hz Hall. revert z Hz.
  induction Hall as [|sol sols [Hr Hs] _ IH]; intros z Hz; simpl; [exact Hz|].
  apply IH. rewrite !phase_norm_mul, Hz, Hr, Hs. reflexivity.
Qed.

(** X2.  The table phases have unit magnitude, and so has the running phase
    after the first hop and after any number of later hops. *)
Theorem running_phase_has_unit_magnitude table gates (first : hop) (rest : list hop)
    (st st' : RunningState) :
  first_hop gates first = Return st ->
  later_hops table gates st rest = Return st' ->
  (forall name, phase_norm (reflection_options name).1.2 = 1%Z)
  /\ (forall name, phase_norm (shift_options name).1.2 = 1%Z)
  /\ phase_norm (st_phase st) = 1%Z
  /\ phase_norm (st_phase st') = 1%Z.
Proof.
  intros Hfirst Hrest.
  assert (Hst : phase_norm (st_phase st) = 1%Z).
  { rewrite (first_hop_running_phase _ _ _ Hfirst). unfold first_hop_phase.
    destruct (Qle_bool first.2.1.1 (1 # 4)); reflexivity. }
  split; [exact reflection_phase_unit|]. split; [exact shift_phase_unit|].
  split; [exact Hst|].
  destruct (later_hops_running_phase _ _ _ _ _ Hrest) as (sols & Hall & ->).
  apply fold_phase_unit; [exact Hst|].
  clear Hrest. induction Hall as [|h sol hops sols Hs _ IH]; constructor; [|exact IH].
  destruct (search_hop_solution _ _ _ Hs) as (_ & -> & ->).
  split; [apply reflection_phase_unit|apply shift_phase_unit].
Qed.

(** *** Which rotations the search saves *)

Lemma try_combination_rotations table target operation rn reflected sn sol :
  try_combination table target operation rn reflected sn = Return (Some sol) ->
  In (permute_source_for_overlap sol) ascending_rotations
  /\ In (permute_target_for_overlap sol) ascending_rotations.
Proof.
  unfold try_combination.
  destruct reflected as [[rc rq] rp].
  destruct (apply_shift sn rc) as [[sc sq] sp].
  destruct (find_overlap axis_pairs sc target) as [[i j]|] eqn:Ho; [|discriminate].
  destruct (find_overlap_in _ _ _ _ _ Ho) as [Hin _].
  destruct (axis_pairs_in_range _ _ Hin) as [Hi Hj].
  destruct (other_axes_in_range i Hi) as (sf & ss & -> & Hs).
  destruct (other_axes_in_range j Hj) as (tf & ts & -> & Ht).
  cbn [mbind result_bind].
  destruct (getitem table operation) as [c|e]; cbn [mbind result_bind]; [|discriminate].
  destruct (decompose_xxyy_into_xxyy_xx _ _ _ _ _ _ _)
    as [[[[[[r|] [s|]] [u|]] [v|]] [x|]] [y|]]; try discriminate.
  intros [= <-]. cbn [permute_source_for_overlap permute_target_for_overlap].
  split; assumption.
Qed.

Lemma search_hop_rotations table h sol :
  search_hop table h = Return (Some sol) ->
  In (permute_source_for_overlap sol) ascending_rotations
  /\ In (permute_target_for_overlap sol) ascending_rotations.
Proof.
  rewrite search_hop_first_success. intros H.
  destruct (first_success_found _ _ _ H) as (l1 & c & l2 & _ & _ & Hok).
  exact (try_combination_rotations _ _ _ _ _ _ _ Hok).
Qed.

(** X11.  The search only ever saves the rotation circuits of the ascending
    index pairs (1, 2), (0, 2) and (0, 1): the symmetry the assembler
    conjugates by is never the circuit of the branches (1, 0), (2, 0) or
    (2, 1) of [canonical_rotation_circuit]. *)
Theorem search_saves_ascending_rotations table h sol :
  search_hop table h = Return (Some sol) ->
  (In (permute_source_for_overlap sol) ascending_rotations
   /\ In (permute_target_for_overlap sol) ascending_rotations)
  /\ ~ In (permute_source_for_overlap sol) descending_rotations
  /\ ~ In (permute_target_for_overlap sol) descending_rotations.
Proof.
  intros H. destruct (search_hop_rotations _ _ _ H) as [Hs Ht].
  split; [split; assumption|].
  split; apply ascending_not_descending; assumption.
Qed.

(** *** The errors of the synthesis *)

Lemma combination_body_outcome table source target operation c :
  combination_body table source target operation c =
    match combination_overlap source target c with
    | None => Return None
    | Some _ =>
        match table !! operation with
        | None => Raise KeyError
        | Some _ => combination_body table source target operation c
        end
    end.
Proof.
  unfold combination_body, combination_overlap, try_combination.
  destruct (apply_reflection c.1 source) as [[rc rq] rp]. cbn [fst snd].
  destruct (apply_shift c.2 rc) as [[sc sq] sp]. cbn [fst snd].
  destruct (find_overlap axis_pairs sc target) as [[i j]|] eqn:Ho; [|reflexivity].
  destruct (table !! operation) as [c'|] eqn:Hl; [reflexivity|].
  destruct (find_overlap_in _ _ _ _ _ Ho) as [Hin _].
  destruct (axis_pairs_in_range _ _ Hin) as [Hi Hj].
  destruct (other_axes_in_range i Hi) as (sf & ss & -> & _).
  destruct (other_axes_in_range j Hj) as (tf & ts & -> & _).
  cbn [mbind result_bind]. unfold getitem. rewrite Hl. reflexivity.
Qed.

Lemma combination_body_raises_KeyError table source target operation c (e : exn) :
  combination_body table source target operation c = Raise e ->
  e = KeyError /\ table !! operation = None.
Proof.
  rewrite combination_body_outcome.
  destruct (combination_overlap source target c); [|discriminate].
  destruct (table !! operation) as [c'|] eqn:Hl.
  - unfold combination_body, try_combination.
    destruct (apply_reflection c.1 source) as [[rc rq] rp].
    destruct (apply_shift c.2 rc) as [[sc sq] sp].
    destruct (find_overlap axis_pairs sc target) as [[i j]|] eqn:Ho; [|discriminate].
    destruct (find_overlap_in _ _ _ _ _ Ho) as [Hin _].
    destruct (axis_pairs_in_range _ _ Hin) as [Hi Hj].
    destruct (other_axes_in_range i Hi) as (sf & ss & -> & _).
    destruct (other_axes_in_range j Hj) as (tf & ts & -> & _).
    cbn [mbind result_bind]. unfold getitem. rewrite Hl. cbn [mbind result_bind].
    destruct (decompose_xxyy_into_xxyy_xx _ _ _ _ _ _ _)
      as [[[[[[r|] [s|]] [u|]] [v|]] [x|]] [y|]]; discriminate.
  - intros [= <-]. split; reflexivity.
Qed.

Lemma search_hop_raises table h (e : exn) :
  search_hop table h = Raise e -> e = KeyError /\ table !! h.1.2 = None.
Proof.
  rewrite search_hop_first_success. intros H.
  destruct (first_success_raises _ _ _ H) as (c & _ & Hc).
  exact (combination_body_raises_KeyError _ _ _ _ _ _ Hc).
Qed.

Lemma later_hop_raises table gates st h (e : exn) :
  later_hop table gates st h = Raise e ->
  e = NoBacksolution
  \/ e = KeyError /\ (table !! h.1.2 = None \/ gates !! h.1.2 = None).
Proof.
  unfold later_hop.
  destruct (search_hop table h) as [[sol|]|e'] eqn:Hs; cbn [mbind result_bind].
  - unfold getitem. destruct (gates !! h.1.2) eqn:Hg; cbn [mbind result_bind];
      [discriminate|]. intros [= <-]. right. auto.
  - intros [= <-]. left. reflexivity.
  - intros [= <-]. destruct (search_hop_raises _ _ _ Hs) as [-> Hl]. right. auto.
Qed.

Lemma later_hops_raises table gates st hops (e : exn) :
  later_hops table gates st hops = Raise e ->
  e = NoBacksolution
  \/ e = KeyError
     /\ Exists (fun h => table !! h.1.2 = None \/ gates !! h.1.2 = None) hops.
Proof.
  revert st. induction hops as [|h hops IH]; intros st; cbn [later_hops]; [discriminate|].
  destruct (later_hop table gates st h) as [st'|e'] eqn:Hh; cbn [mbind result_bind].
  - intros H. destruct (IH _ H) as [->|[-> Hex]]; [left; reflexivity|].
    right. split; [reflexivity|]. apply Exists_cons_tl. exact Hex.
  - intros [= <-]. destruct (later_hop_raises _ _ _ _ _ Hh) as [->|[-> Hm]];
      [left; reflexivity|].
    right. split; [reflexivity|]. apply Exists_cons_hd. exact Hm.
Qed.

Lemma first_hop_raises gates h (e : exn) :
  first_hop gates h = Raise e -> e = KeyError /\ gates !! h.1.2 = None.
Proof.
  destruct h as [[source operation] target]. unfold first_hop, getitem. cbn [fst snd].
  destruct (Qle_bool target.1.1 (1 # 4)); cbn;
    destruct (gates !! operation); cbn [mbind result_bind]; try discriminate;
    intros [= <-]; split; reflexivity.
Qed.

Lemma operation_coordinate_raises operation (e : exn) :
  operation_coordinate operation = Raise e -> e = IndexError \/ e = StopIteration.
Proof.
  unfold operation_coordinate, index.
  destruct (convex_subpolytopes operation !! 0%nat) as [P|]; cbn [mbind result_bind].
  2:{ intros [= <-]. left. reflexivity. }
  destruct (next_solved_coordinate 0 (equalities P)) as [x|e0] eqn:H0;
    cbn [mbind result_bind].
  2:{ intros [= <-]. destruct (next_solved_coordinate_raises _ _ _ H0); auto. }
  destruct (next_solved_coordinate 1 (equalities P)) as [y|e1] eqn:H1;
    cbn [mbind result_bind].
  2:{ intros [= <-]. destruct (next_solved_coordinate_raises _ _ _ H1); auto. }
  destruct (next_solved_coordinate 2 (equalities P)) as [z|e2] eqn:H2;
    cbn [mbind result_bind].
  2:{ intros [= <-]. destruct (next_solved_coordinate_raises _ _ _ H2); auto. }
  discriminate.
Qed.

Lemma build_coordinate_table_raises ops (t : gmap string coord) (e : exn) :
  build_coordinate_table ops t = Raise e -> e = IndexError \/ e = StopIteration.
Proof.
  revert t. induction ops as [|op ops IH]; intros t; cbn [build_coordinate_table];
    [discriminate|].
  unfold index at 1. destruct (operations op !! 0%nat) as [name|];
    cbn [mbind result_bind].
  2:{ intros [= <-]. left. reflexivity. }
  destruct (operation_coordinate op) as [c|e'] eqn:Hc; cbn [mbind result_bind].
  - apply IH.
  - intros [= <-]. exact (operation_coordinate_raises _ _ Hc).
Qed.

(** X12.  What the synthesis can raise.  It never raises a ValueError: the
    unpacking of the two remaining axes always finds exactly two.  An
    IndexError, a StopIteration or an AssertionError comes from the catalog
    alone, and the same catalog raises it on every path, the empty one
    included; a KeyError or NoBacksolution comes from a non-empty path over a
    catalog that passed the assertion and names the hop: a KeyError some hop
    whose label one of the tables lacks. *)
Theorem synthesis_error_kinds decomposition ops (e : exn) :
  xx_circuit_from_decomposition decomposition ops = Raise e ->
  e <> ValueError
  /\ (((e = IndexError \/ e = StopIteration \/ e = AssertionError)
       /\ forall path, xx_circuit_from_decomposition path ops = Raise e)
      \/ ((e = KeyError \/ e = NoBacksolution)
          /\ decomposition <> []
          /\ exists table gates,
               catalog_tables ops table gates
               /\ (e = KeyError ->
                   Exists (fun h => table !! h.1.2 = None \/ gates !! h.1.2 = None)
                          decomposition))).
Proof.
  intros H.
  assert (Hkinds :
    ((e = IndexError \/ e = StopIteration \/ e = AssertionError)
       /\ forall path, xx_circuit_from_decomposition path ops = Raise e)
    \/ ((e = KeyError \/ e = NoBacksolution)
        /\ decomposition <> []
        /\ exists table gates,
             catalog_tables ops table gates
             /\ (e = KeyError ->
                 Exists (fun h => table !! h.1.2 = None \/ gates !! h.1.2 = None)
                        decomposition))).
  { revert H. unfold xx_circuit_from_decomposition.
    destruct (build_coordinate_table ops ∅) as [table|e0] eqn:Hc;
      cbn [mbind result_bind].
    2:{ intros [= <-]. left.
        destruct (build_coordinate_table_raises _ _ _ Hc) as [->| ->]; auto. }
    destruct (all_xx_type table) eqn:Hx; cbn [negb].
    2:{ intros [= <-]. left. auto. }
    destruct (build_gate_table_total ops ∅ ∅ table Hc) as [gates Hg].
    rewrite Hg. cbn [mbind result_bind].
    destruct decomposition as [|first rest]; [discriminate|].
    assert (Hcat : catalog_tables ops table gates) by (repeat split; assumption).
    destruct (first_hop gates first) as [st|e1] eqn:Hf; cbn [mbind result_bind].
    2:{ intros [= <-]. destruct (first_hop_raises _ _ _ Hf) as [-> Hm].
        right. split; [auto|]. split; [discriminate|].
        exists table, gates. split; [exact Hcat|]. intros _.
        apply Exists_cons_hd. auto. }
    destruct (later_hops table gates st rest) as [st'|e2] eqn:Hl;
      cbn [mbind result_bind]; [discriminate|].
    intros [= <-]. right.
    destruct (later_hops_raises _ _ _ _ _ Hl) as [->|[-> Hex]].
    - split; [auto|]. split; [discriminate|]. exists table, gates.
      split; [exact Hcat|]. discriminate.
    - split; [auto|]. split; [discriminate|]. exists table, gates.
      split; [exact Hcat|]. intros _. apply Exists_cons_tl. exact Hex. }
  split; [|exact Hkinds].
  destruct Hkinds as [[[->|[->| ->] ] _]|[[->| ->] _]]; discriminate.
Qed.

(** *** The two tables hold the same catalog entries *)

Lemma build_tables_related all ops (t table : gmap string coord)
    (g gates : gmap string QuantumCircuit) :
  (forall op, In op ops -> In op all) ->
  build_coordinate_table ops t = Return table ->
  build_gate_table ops g = Return gates ->
  (forall name, same_entry all name (t !! name) (g !! name)) ->
  forall name, same_entry all name (table !! name) (gates !! name).
Proof.
  revert t g. induction ops as [|op ops IH]; intros t g Hin;
    cbn [build_coordinate_table build_gate_table].
  - intros [= <-] [= <-] H. exact H.
  - unfold index. destruct (operations op !! 0%nat) as [name0|] eqn:Hn;
      cbn [mbind result_bind]; [|discriminate].
    destruct (operation_coordinate op) as [c|e] eqn:Hc; cbn [mbind result_bind];
      [|discriminate].
    intros Ht Hg Hinv. apply (IH _ _ (fun o Ho => Hin o (or_intror Ho)) Ht Hg).
    intros name. destruct (decide (name = name0)) as [->|Hne].
    + rewrite !lookup_insert_eq. exists op.
      split; [apply Hin; left; reflexivity|]. auto.
    + rewrite !lookup_insert_ne by congruence. apply Hinv.
Qed.

Lemma catalog_tables_related ops table gates (name : string) :
  catalog_tables ops table gates ->
  same_entry ops name (table !! name) (gates !! name).
Proof.
  intros (Hc & _ & Hg).
  apply (build_tables_related ops ops ∅ table ∅ gates (fun _ H => H) Hc Hg).
  intros name'. rewrite !lookup_empty. exact I.
Qed.

Lemma build_coordinate_table_holds ops (t table : gmap string coord) (name : string) :
  build_coordinate_table ops t = Return table ->
  is_Some (t !! name) \/ Exists (fun op => operations op !! 0%nat = Some name) ops ->
  is_Some (table !! name).
Proof.
  revert t. induction ops as [|op ops IH]; intros t; cbn [build_coordinate_table].
  - intros [= <-] [H|H]; [exact H|inversion H].
  - unfold index. destruct (operations op !! 0%nat) as [name0|] eqn:Hn;
      cbn [mbind result_bind]; [|discriminate].
    destruct (operation_coordinate op) as [c|e]; cbn [mbind result_bind];
      [|discriminate].
    intros Ht H. apply (IH _ Ht).
    destruct (decide (name = name0)) as [->|Hne].
    + left. rewrite lookup_insert_eq. eauto.
    + rewrite lookup_insert_ne by congruence.
      destruct H as [H|H]; [left; exact H|].
      apply Exists_cons in H as [H|H]; [congruence|right; exact H].
Qed.

(** X13.  The two tables of a catalog agree: a label is a key of the
    coordinate table exactly when it is a key of the gate table, the keys are
    the first labels of the catalog entries, and the coordinate and the
    circuit a label is bound to come from one and the same catalog entry. *)
Theorem catalog_tables_agree ops table gates :
  catalog_tables ops table gates ->
  (forall name, table !! name = None <-> gates !! name = None)
  /\ (forall name,
        is_Some (table !! name)
        <-> Exists (fun op => operations op !! 0%nat = Some name) ops)
  /\ (forall name c native,
        table !! name = Some c -> gates !! name = Some native ->
        exists op, In op ops /\ operations op !! 0%nat = Some name
                   /\ operation_coordinate op = Return c
                   /\ canonical_circuit op = native).
Proof.
  intros Hcat. split; [|split].
  - intros name. pose proof (catalog_tables_related _ _ _ name Hcat) as H.
    destruct (table !! name), (gates !! name); cbn in H; try contradiction;
      split; intros; congruence.
  - intros name. split.
    + intros [c Hc]. pose proof (catalog_tables_related _ _ _ name Hcat) as H.
      rewrite Hc in H. destruct (gates !! name); cbn in H; [|contradiction].
      destruct H as (op & Hin & Hn & _). apply Exists_exists. exists op.
      split; [apply list_elem_of_In; exact Hin|exact Hn].
    + intros H. destruct Hcat as (Hc & _).
      apply (build_coordinate_table_holds _ _ _ _ Hc). right. exact H.
  - intros name c native Hc Hg.
    pose proof (catalog_tables_related _ _ _ name Hcat) as H.
    rewrite Hc, Hg in H. exact H.
Qed.

(** X14.  Over a catalog that passed the assertion, a path all of whose
    labels are labels of the catalog either yields a circuit or raises
    NoBacksolution, and then has at least two hops: there is no other
    error. *)
Theorem known_labels_leave_NoBacksolution decomposition ops table gates (e : exn) :
  catalog_tables ops table gates ->
  Forall (fun h => Exists (fun op => operations op !! 0%nat = Some h.1.2) ops)
         decomposition ->
  xx_circuit_from_decomposition decomposition ops = Raise e ->
  e = NoBacksolution /\ (2 <= length decomposition)%nat.
Proof.
  intros Hcat Hall.
  assert (Hknown : Forall (fun h => ~ (table !! h.1.2 = None \/ gates !! h.1.2 = None))
                          decomposition).
  { eapply Forall_impl; [exact Hall|]. intros h Hex.
    assert (Hs : is_Some (table !! h.1.2)).
    { destruct Hcat as (Hc & _).
      apply (build_coordinate_table_holds _ _ _ _ Hc). right. exact Hex. }
    pose proof (catalog_tables_related _ _ _ h.1.2 Hcat) as H.
    destruct Hs as [c Hc]. rewrite Hc in H.
    destruct (gates !! h.1.2); cbn in H; [|contradiction].
    intros [Hn|Hn]; congruence. }
  rewrite (synthesis_with_tables _ _ _ _ Hcat).
  destruct decomposition as [|first rest]; [discriminate|].
  apply Forall_cons in Hknown as [Hfirst Hrest].
  destruct (first_hop gates first) as [st|e1] eqn:Hf; cbn [mbind result_bind].
  2:{ intros [= <-]. destruct (first_hop_raises _ _ _ Hf) as [_ Hm].
      exfalso. apply Hfirst. auto. }
  destruct (later_hops table gates st rest) as [st'|e2] eqn:Hl;
    cbn [mbind result_bind]; [discriminate|].
  intros [= <-]. split.
  - destruct (later_hops_raises _ _ _ _ _ Hl) as [->|[_ Hex]]; [reflexivity|].
    exfalso. apply Exists_exists in Hex as (h & Hin & Hm).
    rewrite Forall_forall in Hrest. exact (Hrest h Hin Hm).
  - destruct rest; [discriminate|]. cbn. lia.
Qed.

(** X15.  A label missing from the coordinate table fails a later hop
    lazily: the table is read only once a symmetry has found a shared axis,
    so the hop raises KeyError when some combination finds one, and
    NoBacksolution, as for an unrealizable hop, when none does. *)
Theorem missing_label_fails_lazily table gates (st : RunningState) (h : hop) :
  table !! h.1.2 = None ->
  (later_hop table gates st h = Raise KeyError
   /\ Exists (fun c => combination_overlap (hop_source h) (hop_target h) c <> None)
             all_combinations)
  \/ (later_hop table gates st h = Raise NoBacksolution
      /\ Forall (fun c => combination_overlap (hop_source h) (hop_target h) c = None)
                all_combinations).
Proof.
  intros Hmiss. unfold later_hop. rewrite search_hop_first_success.
  assert (Hbody : forall c,
    combination_body table (hop_source h) (hop_target h) h.1.2 c =
      match combination_overlap (hop_source h) (hop_target h) c with
      | None => Return None
      | Some _ => Raise KeyError
      end).
  { intros c. rewrite combination_body_outcome, Hmiss. reflexivity. }
  destruct (first_success_two_outcomes
              (combination_body table (hop_source h) (hop_target h) h.1.2)
              all_combinations KeyError) as [[-> Hex]|[-> Hall]].
  - apply Forall_forall. intros c _. rewrite Hbody.
    destruct (combination_overlap _ _ c); auto.
  - left. split; [reflexivity|].
    eapply Exists_impl; [exact Hex|]. intros c. cbn beta. rewrite Hbody.
    destruct (combination_overlap _ _ c); [discriminate|discriminate].
  - right. split; [reflexivity|].
    eapply Forall_impl; [exact Hall|]. intros c. cbn beta. rewrite Hbody.
    destruct (combination_overlap _ _ c); [discriminate|reflexivity].
Qed.

(** *** Where the native circuits end up *)

Lemma interleaved_one (native : QuantumCircuit) (before after : list Instruction) :
  Forall is_local_rotation before -> Forall is_local_rotation after ->
  interleaved [native] (before ++ data native ++ after).
Proof. intros Hb Ha. constructor; [exact Hb|]. constructor. exact Ha. Qed.

Lemma first_hop_interleaved gates h st :
  first_hop gates h = Return st ->
  exists native, gates !! h.1.2 = Some native
                 /\ interleaved [native] (data (st_circuit st)).
Proof.
  destruct h as [[source operation] target]. unfold first_hop, getitem. cbn [fst snd].
  destruct (gates !! operation) as [native|] eqn:Hn.
  2:{ destruct (Qle_bool _ _); cbn; discriminate. }
  destruct (Qle_bool target.1.1 (1 # 4)).
  - cbn [mbind result_bind]. intros [= <-]. exists native. split; [reflexivity|].
    cbn [st_circuit compose data empty_circuit].
    rewrite <- (app_nil_r (data native)).
    apply interleaved_one; constructor.
  - cbn. intros [= <-]. exists native. split; [reflexivity|].
    simpl. rewrite <- !app_assoc.
    apply (interleaved_one native [(RZGate PI, [0%nat])]
             ([(RZGate (- PI), [0%nat])]
              ++ [(RXGate PI, [0%nat]); (RXGate PI, [1%nat])])); local_rotations.
Qed.

Lemma ascending_rotations_local (qc : QuantumCircuit) :
  In qc ascending_rotations -> Forall is_local_rotation (data qc).
Proof.
  unfold ascending_rotations. cbn [In].
  intros [<-|[<-|[<-|Hf] ] ]; [..|contradiction]; apply canonical_rotation_circuit_local.
Qed.

Lemma search_hop_solution_local table h sol :
  search_hop table h = Return (Some sol) ->
  Forall is_local_rotation (data (permute_source_for_overlap sol))
  /\ Forall is_local_rotation (data (permute_target_for_overlap sol))
  /\ Forall is_local_rotation (data (source_reflection sol))
  /\ Forall is_local_rotation (data (source_shift sol)).
Proof.
  intros H. destruct (search_hop_rotations _ _ _ H) as [Hs Ht].
  split; [exact (ascending_rotations_local _ Hs)|].
  split; [exact (ascending_rotations_local _ Ht)|].
  revert H. rewrite search_hop_first_success. intros H.
  destruct (first_success_found _ _ _ H) as (l1 & c & l2 & _ & _ & Hok).
  unfold combination_body in Hok.
  destruct (try_combination_solution _ _ _ _ _ _ _ Hok) as (_ & _ & -> & _ & -> & _).
  split; [apply apply_reflection_local|apply apply_shift_local].
Qed.

Lemma later_hop_interleaved table gates st h st' natives :
  later_hop table gates st h = Return st' ->
  interleaved natives (data (st_circuit st)) ->
  exists native, gates !! h.1.2 = Some native
                 /\ interleaved (native :: natives) (data (st_circuit st')).
Proof.
  unfold later_hop.
  destruct (search_hop table h) as [[sol|]|e] eqn:Hs; cbn [mbind result_bind];
    try discriminate.
  unfold getitem. destruct (gates !! h.1.2) as [native|]; cbn [mbind result_bind];
    [|discriminate].
  intros [= <-] Hprev. exists native. split; [reflexivity|].
  destruct (search_hop_solution_local _ _ _ Hs) as (Hps & Hpt & Hr & Hsh).
  cbn [st_circuit]. rewrite assemble_hop_data.
  rewrite (app_assoc (data (inverse (permute_target_for_overlap sol)))).
  constructor.
  - apply Forall_app. split; [apply local_rotation_inverse; exact Hpt|apply rz_pair_local].
  - rewrite (app_assoc (rz_pair (angle_u sol) (angle_v sol))).
    rewrite (app_assoc (rz_pair (angle_u sol) (angle_v sol)
                        ++ data (permute_source_for_overlap sol))).
    apply interleaved_wrap; [| |exact Hprev].
    + repeat (apply Forall_app; split); auto using rz_pair_local.
    + repeat (apply Forall_app; split);
        auto using rz_pair_local; apply local_rotation_inverse; assumption.
Qed.

Lemma later_hops_interleaved table gates hops :
  forall st st' done natives,
    later_hops table gates st hops = Return st' ->
    Forall2 (fun h native => gates !! h.1.2 = Some native) done natives ->
    interleaved natives (data (st_circuit st)) ->
    exists natives',
      Forall2 (fun h native => gates !! h.1.2 = Some native) (rev hops ++ done) natives'
      /\ interleaved natives' (data (st_circuit st')).
Proof.
  induction hops as [|h hops IH]; intros st st' done natives; cbn [later_hops].
  - intros [= <-] Hd Hi. exists natives. split; assumption.
  - destruct (later_hop table gates st h) as [st1|e] eqn:Hh; cbn [mbind result_bind];
      [|discriminate].
    intros Hrest Hd Hi.
    destruct (later_hop_interleaved _ _ _ _ _ _ Hh Hi) as (native & Hn & Hi1).
    assert (Hd1 : Forall2 (fun h native => gates !! h.1.2 = Some native)
                    (h :: done) (native :: natives)) by (constructor; assumption).
    destruct (IH st1 st' (h :: done) (native :: natives) Hrest Hd1 Hi1)
      as (natives' & Hd' & Hi').
    exists natives'. split; [|exact Hi'].
    cbn [rev]. rewrite <- app_assoc. exact Hd'.
Qed.

(** X16.  The circuit returned for a path holds the native circuits of its
    hops whole, never inverted and in the reverse order of the hops (the
    last hop's native circuit comes first in the instruction list), each one
    the circuit of a catalog entry that carries the hop's label; every other
    instruction is a single-qubit RX, RY or RZ on qubit 0 or 1. *)
Theorem native_circuits_interleaved decomposition ops qc :
  xx_circuit_from_decomposition decomposition ops = Return qc ->
  exists natives,
    Forall2 (fun h native =>
               exists op, In op ops /\ operations op !! 0%nat = Some h.1.2
                          /\ canonical_circuit op = native)
            (rev decomposition) natives
    /\ interleaved natives (data qc).
Proof.
  intros H. destruct (synthesis_inversion _ _ _ H) as (table & gates & Hcat).
  rewrite (synthesis_with_tables _ _ _ _ Hcat) in H.
  assert (Hentry : forall (h : hop) native,
            gates !! h.1.2 = Some native ->
            exists op, In op ops /\ operations op !! 0%nat = Some h.1.2
                       /\ canonical_circuit op = native).
  { intros h native Hn.
    pose proof (catalog_tables_related _ _ _ h.1.2 Hcat) as Hrel.
    rewrite Hn in Hrel. destruct (table !! h.1.2); cbn in Hrel; [|contradiction].
    destruct Hrel as (op & Hin & Hname & _ & Hcirc). eauto. }
  destruct decomposition as [|first rest].
  - injection H as <-. exists []. split; constructor. constructor.
  - destruct (first_hop gates first) as [st|e] eqn:Hf; cbn [mbind result_bind] in H;
      [|discriminate].
    destruct (later_hops table gates st rest) as [st'|e] eqn:Hl;
      cbn [mbind result_bind] in H; [|discriminate].
    injection H as <-. cbn [data].
    destruct (first_hop_interleaved _ _ _ Hf) as (native & Hn & Hi).
    assert (Hd1 : Forall2 (fun h native => gates !! h.1.2 = Some native)
                    [first] [native]) by (repeat constructor; assumption).
    destruct (later_hops_interleaved _ _ _ _ _ [first] [native] Hl Hd1 Hi)
      as (natives & Hd & Hi').
    exists natives. split; [|exact Hi'].
    cbn [rev]. eapply Forall2_impl; [exact Hd|]. exact Hentry.
Qed.

(** *** The phase of the returned circuit *)

Lemma later_hops_phase_unit table gates st hops st' :
  phase_norm (st_phase st) = 1%Z ->
  later_hops table gates st hops = Return st' ->
  phase_norm (st_phase st') = 1%Z.
Proof.
  intros Hst Hrest.
  destruct (later_hops_running_phase _ _ _ _ _ Hrest) as (sols & Hall & ->).
  apply fold_phase_unit; [exact Hst|].
  clear Hrest. induction Hall as [|h sol hops sols Hs _ IH]; constructor; [|exact IH].
  destruct (search_hop_solution _ _ _ Hs) as (_ & -> & ->).
  split; [apply reflection_phase_unit|apply shift_phase_unit].
Qed.

(** X17.  The global phase of a returned circuit is a whole number of
    quarter turns, k pi/2 with -2 <= k <= 2, and 0 for the empty path: the
    global phases of the native circuits and of the fragments composed on the
    way are overwritten by the angle of the running phase. *)
Theorem global_phase_quarter_turns decomposition ops qc :
  xx_circuit_from_decomposition decomposition ops = Return qc ->
  (exists k : Z, (-2 <= k <= 2)%Z /\ global_phase qc = IZR k * (PI / 2))
  /\ (decomposition = [] -> global_phase qc = 0).
Proof.
  intros H. destruct (synthesis_inversion _ _ _ H) as (table & gates & Hcat).
  rewrite (synthesis_with_tables _ _ _ _ Hcat) in H.
  destruct decomposition as [|first rest].
  - injection H as <-. split; [|reflexivity].
    exists 0%Z. split; [lia|]. cbn. lra.
  - split; [|discriminate].
    destruct (first_hop gates first) as [st|e] eqn:Hf; cbn [mbind result_bind] in H;
      [|discriminate].
    destruct (later_hops table gates st rest) as [st'|e] eqn:Hl;
      cbn [mbind result_bind] in H; [|discriminate].
    injection H as <-. cbn [global_phase].
    apply unit_phase_angle. apply (later_hops_phase_unit table gates st rest); [|exact Hl].
    rewrite (first_hop_running_phase _ _ _ Hf). unfold first_hop_phase.
    destruct (Qle_bool first.2.1.1 (1 # 4)); reflexivity.
Qed.

End SynthesisProperties.

(** ** The model on the concrete inputs *)

Lemma Q2R_value (q : Q) (n : Z) (d : positive) (r : R) :
  (q == n # d)%Q -> r = IZR n / IZR (Zpos d) -> Q2R q = r.
Proof. intros H ->. rewrite (Qeq_eqR _ _ H). reflexivity. Qed.

(** The coordinates of the catalog entries, as the table holds them. *)
Lemma example_transform_CX :
  example_transform (- - (1 # 4) / 1)%Q (- - (1 # 4) / 1)%Q (- - (- 1 # 4) / 1)%Q
  = (1 / 4 * PI, 0, 0).
Proof.
  unfold example_transform.
  rewrite (Q2R_value ((- - (1 # 4) / 1 + - - (1 # 4) / 1) / 2) 1 4 (1 / 4))
    by (reflexivity || lra).
  rewrite (Q2R_value ((- - (- 1 # 4) / 1 + - - (1 # 4) / 1) / 2) 0 1 0)
    by (reflexivity || lra).
  rewrite (Q2R_value ((- - (1 # 4) / 1 + - - (- 1 # 4) / 1) / 2) 0 1 0)
    by (reflexivity || lra).
  rewrite !Rmult_0_l. reflexivity.
Qed.

Lemma example_transform_wide :
  example_transform (- - (3 # 10) / 1)%Q (- - (3 # 10) / 1)%Q (- - (- 3 # 10) / 1)%Q
  = (3 / 10 * PI, 0, 0).
Proof.
  unfold example_transform.
  rewrite (Q2R_value ((- - (3 # 10) / 1 + - - (3 # 10) / 1) / 2) 3 10 (3 / 10))
    by (reflexivity || lra).
  rewrite (Q2R_value ((- - (- 3 # 10) / 1 + - - (3 # 10) / 1) / 2) 0 1 0)
    by (reflexivity || lra).
  rewrite (Q2R_value ((- - (3 # 10) / 1 + - - (- 3 # 10) / 1) / 2) 0 1 0)
    by (reflexivity || lra).
  rewrite !Rmult_0_l. reflexivity.
Qed.

Lemma example_transform_diagonal :
  example_transform (- - (1 # 4) / 1)%Q (- - (1 # 4) / 1)%Q (- - (1 # 4) / 1)%Q
  = (1 / 4 * PI, 1 / 4 * PI, 1 / 4 * PI).
Proof.
  unfold example_transform.
  rewrite (Q2R_value ((- - (1 # 4) / 1 + - - (1 # 4) / 1) / 2) 1 4 (1 / 4))
    by (reflexivity || lra).
  reflexivity.
Qed.

(** The canonical coordinates of the ends of the example hops. *)
Lemma example_transform_CX_point :
  example_transform (1 # 4) (1 # 4) (- 1 # 4) = (1 / 4 * PI, 0, 0).
Proof.
  unfold example_transform.
  rewrite (Q2R_value (((1 # 4) + (1 # 4)) / 2) 1 4 (1 / 4)) by (reflexivity || lra).
  rewrite (Q2R_value (((- 1 # 4) + (1 # 4)) / 2) 0 1 0) by (reflexivity || lra).
  rewrite (Q2R_value (((1 # 4) + (- 1 # 4)) / 2) 0 1 0) by (reflexivity || lra).
  rewrite !Rmult_0_l. reflexivity.
Qed.

Lemma example_transform_second_target :
  example_transform (1 # 2) (1 # 4) (- 1 # 4) = (3 / 8 * PI, 1 / 8 * PI, 0).
Proof.
  unfold example_transform.
  rewrite (Q2R_value (((1 # 2) + (1 # 4)) / 2) 3 8 (3 / 8)) by (reflexivity || lra).
  rewrite (Q2R_value (((- 1 # 4) + (1 # 2)) / 2) 1 8 (1 / 8)) by (reflexivity || lra).
  rewrite (Q2R_value (((1 # 4) + (- 1 # 4)) / 2) 0 1 0) by (reflexivity || lra).
  rewrite !Rmult_0_l. reflexivity.
Qed.

Lemma example_transform_eighths :
  example_transform (1 # 8) (1 # 8) (1 # 8) = (1 / 8 * PI, 1 / 8 * PI, 1 / 8 * PI).
Proof.
  unfold example_transform.
  rewrite (Q2R_value (((1 # 8) + (1 # 8)) / 2) 1 8 (1 / 8)) by (reflexivity || lra).
  reflexivity.
Qed.

Lemma example_xx_type (a : R) : xx_type example_epsilon (a, 0, 0).
Proof.
  unfold xx_type, example_epsilon. simpl. rewrite Rabs_R0. split; lra.
Qed.

Lemma example_diagonal_not_xx_type :
  ~ xx_type example_epsilon (1 / 4 * PI, 1 / 4 * PI, 1 / 4 * PI).
Proof.
  unfold xx_type, example_epsilon. simpl. intros [H _].
  pose proof PI_lower. rewrite Rabs_right in H; lra.
Qed.

Lemma example_catalog_tables :
  catalog_tables example_transform example_epsilon example_catalog
    (<["CX" := (1 / 4 * PI, 0, 0)]> ∅)
    (<["CX" := example_native_circuit "CX"]> ∅).
Proof.
  unfold catalog_tables, example_catalog.
  rewrite example_coordinate_table, example_gate_table, example_transform_CX.
  split; [reflexivity|]. split; [|reflexivity].
  apply all_xx_type_singleton. apply example_xx_type.
Qed.

Lemma example_wide_catalog_tables :
  catalog_tables example_transform example_epsilon example_wide_catalog
    (<["wide" := (3 / 10 * PI, 0, 0)]> ∅)
    (<["wide" := example_native_circuit "wide"]> ∅).
Proof.
  unfold catalog_tables, example_wide_catalog.
  rewrite example_coordinate_table, example_gate_table, example_transform_wide.
  split; [reflexivity|]. split; [|reflexivity].
  apply all_xx_type_singleton. apply example_xx_type.
Qed.

(** The images of the CX point under the 32 symmetries have coordinates
    0, pi/2, pi/4 or 3pi/4 modulo pi, at least pi/8 away from pi/8. *)
Lemma example_unrealizable_no_overlap (c : reflection_name * shift_name) :
  find_overlap axis_pairs
    (apply_shift c.2 (apply_reflection c.1 (1 / 4 * PI, 0, 0)).1.1).1.1
    (1 / 8 * PI, 1 / 8 * PI, 1 / 8 * PI) = None.
Proof.
  pose proof PI_lower as HPI. pose proof PI_4 as HPI4.
  apply find_overlap_none. intros i j Hi Hj.
  assert (Ht : coord_get (1 / 8 * PI, 1 / 8 * PI, 1 / 8 * PI) j = 1 / 8 * PI).
  { destruct j as [|[|[|]]]; try lia; reflexivity. }
  rewrite Ht. unfold nearp_default_epsilon.
  destruct c as [[] []], i as [|[|[|]]]; try lia;
    cbn [coord_get apply_shift apply_reflection shift_options reflection_options fst snd];
    apply nearp_far; try lra; unfold Rabs; destruct Rcase_abs; lra.
Qed.

(** *** A second hop that the search solves *)

Lemma cos_PI4_sqr : cos (PI / 4) ^ 2 = 1 / 2.
Proof.
  pose proof (sin2_cos2 (PI / 4)) as H. rewrite sin_cos_PI4 in H.
  unfold Rsqr in H. simpl. lra.
Qed.

Lemma sin_PI4_sqr : sin (PI / 4) ^ 2 = 1 / 2.
Proof. rewrite sin_cos_PI4. exact cos_PI4_sqr. Qed.

Lemma identity_symmetry (c : coord) :
  (apply_shift no_shift (apply_reflection no_reflection c).1.1).1.1 = c.
Proof.
  destruct c as [[c0 c1] c2]. cbn. f_equal; [f_equal|]; lra.
Qed.

Lemma example_backsolve_difference :
  safe_arccos
    (cos (PI / 4) ^ 2 * cos (PI / 4) ^ 2 + sin (PI / 4) ^ 2 * sin (PI / 4) ^ 2
     - cos (PI / 4) ^ 2)
    (2 * cos (PI / 4) * cos (PI / 4) * sin (PI / 4) * sin (PI / 4))
  = Some (acos 0).
Proof.
  pose proof cos_PI4_sqr as HC. pose proof sin_PI4_sqr as HS.
  assert (Hd : 2 * cos (PI / 4) * cos (PI / 4) * sin (PI / 4) * sin (PI / 4) = 1 / 2).
  { simpl in HC, HS. nra. }
  rewrite Hd, HC, HS.
  rewrite safe_arccos_inside.
  - f_equal. f_equal. lra.
  - unfold Rabs. repeat destruct Rcase_abs; lra.
  - lra.
Qed.

Lemma example_backsolve_sum :
  safe_arccos
    (cos (PI / 4) ^ 2 * cos (PI / 4) ^ 2 + sin (PI / 4) ^ 2 * sin (PI / 4) ^ 2
     - cos (PI / 2) ^ 2)
    (2 * cos (PI / 4) * cos (PI / 4) * sin (PI / 4) * sin (PI / 4))
  = Some (acos 1).
Proof.
  pose proof cos_PI4_sqr as HC. pose proof sin_PI4_sqr as HS.
  assert (Hd : 2 * cos (PI / 4) * cos (PI / 4) * sin (PI / 4) * sin (PI / 4) = 1 / 2).
  { simpl in HC, HS. nra. }
  rewrite Hd, HC, HS, cos_PI2.
  rewrite safe_arccos_inside.
  - f_equal. f_equal. lra.
  - unfold Rabs. repeat destruct Rcase_abs; lra.
  - lra.
Qed.

(** The scan passes over the five pairs before (1, 2), where 0 meets 0. *)
Lemma example_second_hop_overlap :
  find_overlap axis_pairs (1 / 4 * PI, 0, 0) (3 / 8 * PI, 1 / 8 * PI, 0) = Some (1, 2)%nat.
Proof.
  pose proof PI_lower as HPI.
  assert (Hfar : forall x y, 1e-2 <= Rabs (x - y) <= PI - 1e-2 ->
            nearp x y PI nearp_default_epsilon = false).
  { intros x y [H1 H2]. apply nearp_far; [exact H1|exact H2|].
    unfold nearp_default_epsilon. lra. }
  unfold axis_pairs. cbn [find_overlap coord_get fst snd].
  rewrite !Hfar by (unfold Rabs; destruct Rcase_abs; lra).
  rewrite nearp_small by (unfold Rabs; destruct Rcase_abs; lra).
  rewrite (bool_decide_eq_true_2 (Rabs (0 - 0) < nearp_default_epsilon)); [reflexivity|].
  unfold nearp_default_epsilon, Rabs. destruct Rcase_abs; lra.
Qed.

Lemma example_second_hop_search :
  exists sol,
    search_hop example_transform example_canonical_matrix example_rz_matrix
      (<["CX" := (1 / 4 * PI, 0, 0)]> ∅) example_second_hop = Return (Some sol).
Proof.
  unfold search_hop, example_second_hop.
  rewrite example_transform_CX_point, example_transform_second_target.
  cbn [reflection_loop reflection_names shift_loop shift_names].
  destruct (try_combination_found example_canonical_matrix example_rz_matrix
              (<["CX" := (1 / 4 * PI, 0, 0)]> ∅) (3 / 8 * PI, 1 / 8 * PI, 0) "CX"
              no_reflection (apply_reflection no_reflection (1 / 4 * PI, 0, 0)) no_shift
              1%nat 2%nat 0%nat 2%nat 0%nat 1%nat (1 / 4 * PI, 0, 0) (acos 0) (acos 1))
    as [sol Hsol].
  - rewrite identity_symmetry. exact example_second_hop_overlap.
  - reflexivity.
  - reflexivity.
  - apply lookup_insert_eq.
  - cbn zeta. rewrite identity_symmetry. cbn [coord_get fst snd].
    replace (1 / 4 * PI - 0) with (PI / 4) by lra.
    replace (1 / 4 * PI + 0) with (PI / 4) by lra.
    replace (1 / 4 * PI) with (PI / 4) by lra.
    replace (3 / 8 * PI - 1 / 8 * PI) with (PI / 4) by lra.
    replace (3 / 8 * PI + 1 / 8 * PI) with (PI / 2) by lra.
    split; [exact example_backsolve_difference|exact example_backsolve_sum].
  - exists sol. rewrite Hsol. reflexivity.
Qed.

(** *** A hop that only a shift solves *)

Lemma example_transform_shifted_target :
  example_transform (- 1 # 4) (1 # 2) (1 # 2) = (1 / 8 * PI, 1 / 8 * PI, 1 / 2 * PI).
Proof.
  unfold example_transform.
  rewrite (Q2R_value (((- 1 # 4) + (1 # 2)) / 2) 1 8 (1 / 8)) by (reflexivity || lra).
  rewrite (Q2R_value (((1 # 2) + (- 1 # 4)) / 2) 1 8 (1 / 8)) by (reflexivity || lra).
  rewrite (Q2R_value (((1 # 2) + (1 # 2)) / 2) 1 2 (1 / 2)) by (reflexivity || lra).
  reflexivity.
Qed.

Lemma Z_shift_of_CX_point :
  (apply_shift Z_shift (apply_reflection no_reflection (1 / 4 * PI, 0, 0)).1.1).1.1
  = (1 / 4 * PI, 0, 1 / 2 * PI).
Proof. cbn. f_equal; [f_equal|]; lra. Qed.

(** Under the identity no coordinate of the source, pi/4 or 0, is within the
    tolerance of pi/8 or pi/2 modulo pi. *)
Lemma example_shifted_hop_identity_skipped :
  find_overlap axis_pairs (1 / 4 * PI, 0, 0) (1 / 8 * PI, 1 / 8 * PI, 1 / 2 * PI) = None.
Proof.
  pose proof PI_lower as HPI. pose proof PI_4 as HPI4.
  apply find_overlap_none. intros i j Hi Hj. unfold nearp_default_epsilon.
  destruct i as [|[|[|]]], j as [|[|[|]]]; try lia; cbn [coord_get fst snd];
    apply nearp_far; try lra; unfold Rabs; destruct Rcase_abs; lra.
Qed.

(** After "Z shift" the scan passes over eight pairs and stops at (2, 2),
    where pi/2 meets pi/2. *)
Lemma example_shifted_hop_overlap :
  find_overlap axis_pairs (1 / 4 * PI, 0, 1 / 2 * PI) (1 / 8 * PI, 1 / 8 * PI, 1 / 2 * PI)
  = Some (2, 2)%nat.
Proof.
  pose proof PI_lower as HPI. pose proof PI_4 as HPI4.
  assert (Hfar : forall x y, 1e-2 <= Rabs (x - y) <= PI - 1e-2 ->
            nearp x y PI nearp_default_epsilon = false).
  { intros x y [H1 H2]. apply nearp_far; [exact H1|exact H2|].
    unfold nearp_default_epsilon. lra. }
  unfold axis_pairs. cbn [find_overlap coord_get fst snd].
  rewrite !Hfar by (unfold Rabs; destruct Rcase_abs; lra).
  rewrite nearp_small by (unfold Rabs; destruct Rcase_abs; lra).
  rewrite (bool_decide_eq_true_2
             (Rabs (1 / 2 * PI - 1 / 2 * PI) < nearp_default_epsilon)); [reflexivity|].
  unfold nearp_default_epsilon, Rabs. destruct Rcase_abs; lra.
Qed.

Lemma example_shifted_backsolve_difference :
  safe_arccos
    (cos (PI / 4) ^ 2 * cos (PI / 4) ^ 2 + sin (PI / 4) ^ 2 * sin (PI / 4) ^ 2
     - cos 0 ^ 2)
    (2 * cos (PI / 4) * cos (PI / 4) * sin (PI / 4) * sin (PI / 4))
  = Some (acos (- 1)).
Proof.
  pose proof cos_PI4_sqr as HC. pose proof sin_PI4_sqr as HS.
  assert (Hd : 2 * cos (PI / 4) * cos (PI / 4) * sin (PI / 4) * sin (PI / 4) = 1 / 2).
  { simpl in HC, HS. nra. }
  rewrite Hd, HC, HS, cos_0.
  rewrite safe_arccos_inside.
  - f_equal. f_equal. lra.
  - unfold Rabs. repeat destruct Rcase_abs; lra.
  - lra.
Qed.

(** The search passes over the identity and stops at "Z shift": the phases
    it saves are 1 and 1j, the shift circuit is Rz(pi) on both wires, and
    neither side needs an axis rotation. *)
Lemma example_shifted_hop_search :
  exists sol,
    search_hop example_transform example_canonical_matrix example_rz_matrix
      (<["CX" := (1 / 4 * PI, 0, 0)]> ∅) example_shifted_hop = Return (Some sol)
    /\ source_reflection_name sol = no_reflection
    /\ source_shift_name sol = Z_shift
    /\ reflection_phase_shift sol = (1, 0)%Z
    /\ shift_phase_shift sol = (0, 1)%Z
    /\ data (source_reflection sol) = []
    /\ data (source_shift sol) = [(RZGate PI, [0%nat]); (RZGate PI, [1%nat])]
    /\ data (permute_source_for_overlap sol) = []
    /\ data (permute_target_for_overlap sol) = [].
Proof.
  unfold search_hop, example_shifted_hop.
  rewrite example_transform_CX_point, example_transform_shifted_target.
  cbn [reflection_loop reflection_names shift_loop shift_names].
  assert (Hskip :
    try_combination example_canonical_matrix example_rz_matrix
      (<["CX" := (1 / 4 * PI, 0, 0)]> ∅) (1 / 8 * PI, 1 / 8 * PI, 1 / 2 * PI) "CX"
      no_reflection (apply_reflection no_reflection (1 / 4 * PI, 0, 0)) no_shift
    = Return None).
  { apply (combination_body_no_overlap example_canonical_matrix example_rz_matrix
             (<["CX" := (1 / 4 * PI, 0, 0)]> ∅) (1 / 4 * PI, 0, 0)
             (1 / 8 * PI, 1 / 8 * PI, 1 / 2 * PI) "CX" (no_reflection, no_shift)).
    cbn [fst snd]. rewrite identity_symmetry.
    exact example_shifted_hop_identity_skipped. }
  rewrite Hskip. cbn [mbind result_bind].
  assert (Hov :
    find_overlap axis_pairs
      (apply_shift Z_shift (apply_reflection no_reflection (1 / 4 * PI, 0, 0)).1.1).1.1
      (1 / 8 * PI, 1 / 8 * PI, 1 / 2 * PI) = Some (2, 2)%nat).
  { rewrite Z_shift_of_CX_point. exact example_shifted_hop_overlap. }
  destruct (try_combination_found example_canonical_matrix example_rz_matrix
              (<["CX" := (1 / 4 * PI, 0, 0)]> ∅) (1 / 8 * PI, 1 / 8 * PI, 1 / 2 * PI) "CX"
              no_reflection (apply_reflection no_reflection (1 / 4 * PI, 0, 0)) Z_shift
              2%nat 2%nat 0%nat 1%nat 0%nat 1%nat (1 / 4 * PI, 0, 0)
              (acos (- 1)) (acos 0))
    as [sol Hsol].
  - exact Hov.
  - reflexivity.
  - reflexivity.
  - apply lookup_insert_eq.
  - cbn zeta. rewrite Z_shift_of_CX_point. cbn [coord_get fst snd].
    replace (1 / 4 * PI - 0) with (PI / 4) by lra.
    replace (1 / 4 * PI + 0) with (PI / 4) by lra.
    replace (1 / 4 * PI) with (PI / 4) by lra.
    replace (1 / 8 * PI - 1 / 8 * PI) with 0 by lra.
    replace (1 / 8 * PI + 1 / 8 * PI) with (PI / 4) by lra.
    split; [exact example_shifted_backsolve_difference|exact example_backsolve_difference].
  - exists sol. rewrite Hsol. cbn [mbind result_bind].
    split; [reflexivity|].
    destruct (try_combination_solution _ _ _ _ _ _ _ _ _ Hsol)
      as (Hrn & Hsn & Hr & Hrp & Hs & Hsp).
    destruct (try_combination_permutes _ _ _ _ _ _ _ _ _ _ _ _ _ _ _ Hsol Hov
                eq_refl eq_refl) as [Hps Hpt].
    rewrite Hrn, Hsn, Hr, Hrp, Hs, Hsp, Hps, Hpt.
    repeat split; reflexivity.
Qed.

(** *** Catalogs whose native circuits carry a phase *)

Lemma example_phased_catalog_tables :
  catalog_tables example_transform example_epsilon example_phased_catalog
    (<["CX" := (1 / 4 * PI, 0, 0)]> ∅)
    (<["CX" := example_phased_circuit "CX" (PI / 2)]> ∅).
Proof.
  unfold catalog_tables, example_phased_catalog.
  change (build_coordinate_table example_transform
            [example_phased_operation "CX" (1 # 4) (1 # 4) (- 1 # 4) (PI / 2)] ∅)
    with (build_coordinate_table example_transform
            [example_operation "CX" (1 # 4) (1 # 4) (- 1 # 4)] ∅).
  rewrite example_coordinate_table, example_transform_CX.
  split; [reflexivity|]. split; [|reflexivity].
  apply all_xx_type_singleton. apply example_xx_type.
Qed.

Lemma example_phased_wide_catalog_tables :
  catalog_tables example_transform example_epsilon example_phased_wide_catalog
    (<["wide" := (3 / 10 * PI, 0, 0)]> ∅)
    (<["wide" := example_phased_circuit "wide" (PI / 2)]> ∅).
Proof.
  unfold catalog_tables, example_phased_wide_catalog.
  change (build_coordinate_table example_transform
            [example_phased_operation "wide" (3 # 10) (3 # 10) (- 3 # 10) (PI / 2)] ∅)
    with (build_coordinate_table example_transform
            [example_operation "wide" (3 # 10) (3 # 10) (- 3 # 10)] ∅).
  rewrite example_coordinate_table, example_transform_wide.
  split; [reflexivity|]. split; [|reflexivity].
  apply all_xx_type_singleton. apply example_xx_type.
Qed.

(** *** Runs of the synthesis *)

Lemma example_direct_run :
  first_hop (<["CX" := example_native_circuit "CX"]> ∅) example_first_hop
  = Return (mkState (compose empty_circuit (example_native_circuit "CX")) phase_one)
  /\ example_synthesis [example_first_hop] example_catalog
     = Return (mkCircuit (data (example_native_circuit "CX")) 0).
Proof.
  apply (single_hop_direct _ _ _ _ _ _ _ example_first_hop _ example_catalog_tables).
  - apply lookup_insert_eq.
  - reflexivity.
Qed.

Lemma example_second_hop_run (st : RunningState) :
  exists st',
    later_hops example_transform example_canonical_matrix example_rz_matrix
      (<["CX" := (1 / 4 * PI, 0, 0)]> ∅) (<["CX" := example_native_circuit "CX"]> ∅)
      st [example_second_hop] = Return st'.
Proof.
  destruct example_second_hop_search as [sol Hsol].
  cbn [later_hops]. unfold later_hop. rewrite Hsol. cbn [mbind result_bind].
  unfold getitem, example_second_hop. cbn [fst snd].
  rewrite lookup_insert_eq. cbn [mbind result_bind]. eauto.
Qed.

Lemma example_two_hop_run :
  exists out,
    example_synthesis [example_first_hop; example_second_hop] example_catalog = Return out.
Proof.
  unfold example_synthesis.
  rewrite (synthesis_with_tables _ _ _ _ _ _ _ _ example_catalog_tables).
  rewrite (proj1 example_direct_run). cbn [mbind result_bind].
  destruct (example_second_hop_run
              (mkState (compose empty_circuit (example_native_circuit "CX")) phase_one))
    as [st' ->].
  cbn [mbind result_bind]. eauto.
Qed.

Lemma example_bad_table :
  build_coordinate_table example_transform [example_bad_operation] ∅
  = Return (<["bad" := (1 / 4 * PI, 1 / 4 * PI, 1 / 4 * PI)]> ∅).
Proof.
  unfold example_bad_operation.
  rewrite example_coordinate_table, example_transform_diagonal. reflexivity.
Qed.

Lemma example_bad_coordinate :
  operation_coordinate example_transform example_bad_operation
  = Return (1 / 4 * PI, 1 / 4 * PI, 1 / 4 * PI).
Proof.
  unfold example_bad_operation.
  rewrite example_operation_coordinate, example_transform_diagonal. reflexivity.
Qed.

(** The two-hop run whose second hop "Z shift" solves: the circuit returned
    is the one assembled from the solution the search finds. *)
Lemma example_shifted_run :
  exists sol,
    search_hop example_transform example_canonical_matrix example_rz_matrix
      (<["CX" := (1 / 4 * PI, 0, 0)]> ∅) example_shifted_hop = Return (Some sol)
    /\ example_synthesis [example_first_hop; example_shifted_hop] example_catalog
       = Return
           (mkCircuit
              (data (assemble_hop (compose empty_circuit (example_native_circuit "CX"))
                       (example_native_circuit "CX") sol))
              (- np_log_imag
                   (phase_mul phase_one
                      (phase_mul (reflection_phase_shift sol) (shift_phase_shift sol))))).
Proof.
  destruct example_shifted_hop_search as (sol & Hsol & _).
  exists sol. split; [exact Hsol|].
  unfold example_synthesis.
  rewrite (synthesis_with_tables _ _ _ _ _ _ _ _ example_catalog_tables).
  rewrite (proj1 example_direct_run). cbn [mbind result_bind later_hops].
  unfold later_hop. rewrite Hsol. cbn [mbind result_bind].
  unfold getitem, example_shifted_hop. cbn [fst snd].
  rewrite lookup_insert_eq. reflexivity.
Qed.

(** ** Witnesses and counterexamples *)

(** C1, as stated, fails on the two-hop path whose second hop the search
    solves with "Z shift": the circuit the code returns is neither reading
    of the specification's nesting; it is two instructions shorter, the
    inverse of the source shift being absent. *)
Lemma hop_nesting_counterexample :
  exists (sol : Solution) (out : QuantumCircuit),
    search_hop example_transform example_canonical_matrix example_rz_matrix
      (<["CX" := (1 / 4 * PI, 0, 0)]> ∅) example_shifted_hop = Return (Some sol)
    /\ example_synthesis [example_first_hop; example_shifted_hop] example_catalog
       = Return out
    /\ data out
       = data (assemble_hop (compose empty_circuit (example_native_circuit "CX"))
                 (example_native_circuit "CX") sol)
    /\ data out
       <> spec_hop_nesting (compose empty_circuit (example_native_circuit "CX"))
            (example_native_circuit "CX") sol
    /\ data out
       <> spec_hop_nesting_as_product (compose empty_circuit (example_native_circuit "CX"))
            (example_native_circuit "CX") sol
    /\ length (data out) = 10%nat
    /\ length (spec_hop_nesting (compose empty_circuit (example_native_circuit "CX"))
                 (example_native_circuit "CX") sol) = 12%nat.
Proof.
  destruct example_shifted_run as (sol & Hsol & Hrun).
  destruct example_shifted_hop_search
    as (sol' & Hsol' & _ & _ & _ & _ & Hr & Hs & Hps & Hpt).
  rewrite Hsol in Hsol'. injection Hsol' as <-.
  eexists sol, _. split; [exact Hsol|]. split; [exact Hrun|].
  cbn [data]. split; [reflexivity|].
  assert (Hcode : length (data (assemble_hop
                     (compose empty_circuit (example_native_circuit "CX"))
                     (example_native_circuit "CX") sol)) = 10%nat).
  { rewrite assemble_hop_data. unfold inverse. cbn [data].
    rewrite Hr, Hs, Hps, Hpt. reflexivity. }
  assert (Hspec : length (spec_hop_nesting
                     (compose empty_circuit (example_native_circuit "CX"))
                     (example_native_circuit "CX") sol) = 12%nat).
  { unfold spec_hop_nesting, spec_hop_fragments, inverse. cbn [data].
    rewrite Hr, Hs, Hps, Hpt. reflexivity. }
  assert (Hprod : length (spec_hop_nesting_as_product
                     (compose empty_circuit (example_native_circuit "CX"))
                     (example_native_circuit "CX") sol) = 12%nat).
  { unfold spec_hop_nesting_as_product, spec_hop_fragments, inverse. cbn [data].
    rewrite Hr, Hs, Hps, Hpt. reflexivity. }
  split; [|split; [|split; assumption]].
  - intros E. rewrite E, Hspec in Hcode. discriminate.
  - intros E. rewrite E, Hprod in Hcode. discriminate.
Qed.

Lemma first_hop_special_case_witness :
  (example_synthesis [example_first_hop] example_catalog
   = Return (mkCircuit (data (example_native_circuit "CX")) 0)
   /\ example_synthesis [example_first_hop] example_catalog
      = Return (example_native_circuit "CX"))
  /\ example_synthesis [example_wide_first_hop] example_wide_catalog
     = Return (mkCircuit
                 ([(RZGate PI, [0%nat])] ++ data (example_native_circuit "wide")
                  ++ [(RZGate (- PI), [0%nat])]
                  ++ [(RXGate PI, [0%nat]); (RXGate PI, [1%nat])])
                 (PI / 2)).
Proof.
  split.
  - destruct (proj1 (first_hop_special_case
                       example_transform example_epsilon example_canonical_matrix
                       example_rz_matrix example_catalog _ _ example_first_hop _
                       example_catalog_tables
                       (lookup_insert_eq (M := gmap string) ∅ "CX"
                          (example_native_circuit "CX"))) eq_refl)
      as (_ & Hout & Hraw).
    split; [exact Hout|]. apply Hraw. reflexivity.
  - apply (first_hop_special_case _ _ _ _ _ _ _ example_wide_first_hop _
             example_wide_catalog_tables
             (lookup_insert_eq (M := gmap string) ∅ "wide" (example_native_circuit "wide"))).
    reflexivity.
Defined.

(** C2, as stated, fails in three ways.  A one-hop path at parameter 1/4
    over a native fragment of global phase pi/2 returns that fragment's
    instructions with phase 0, not the raw fragment.  At parameter 3/10 over
    a native fragment of phase pi/2 the phase returned, pi/2, does not differ
    from the fragment's own.  And a first hop that names CX, whose own
    parameter is 1/4, but ends at 3/10 is wrapped: the test reads the hop's
    target. *)
Lemma first_hop_special_case_counterexample :
  (example_synthesis [example_first_hop] example_phased_catalog
   = Return (mkCircuit (data (example_phased_circuit "CX" (PI / 2))) 0)
   /\ example_synthesis [example_first_hop] example_phased_catalog
      <> Return (example_phased_circuit "CX" (PI / 2)))
  /\ (exists out,
        example_synthesis [example_wide_first_hop] example_phased_wide_catalog
        = Return out
        /\ global_phase out = global_phase (example_phased_circuit "wide" (PI / 2)))
  /\ example_synthesis [example_mismatched_first_hop] example_catalog
     = Return (mkCircuit
                 ([(RZGate PI, [0%nat])] ++ data (example_native_circuit "CX")
                  ++ [(RZGate (- PI), [0%nat])]
                  ++ [(RXGate PI, [0%nat]); (RXGate PI, [1%nat])])
                 (PI / 2)).
Proof.
  split; [|split].
  - assert (Hout :
      example_synthesis [example_first_hop] example_phased_catalog
      = Return (mkCircuit (data (example_phased_circuit "CX" (PI / 2))) 0)).
    { apply (single_hop_direct _ _ _ _ _ _ _ example_first_hop _
               example_phased_catalog_tables).
      - apply lookup_insert_eq.
      - reflexivity. }
    split; [exact Hout|]. rewrite Hout. intros E.
    injection E as E. pose proof PI_lower. lra.
  - eexists. split.
    + exact (proj2 (single_hop_wrapped
                      example_transform example_epsilon example_canonical_matrix
                      example_rz_matrix example_phased_wide_catalog _ _
                      example_wide_first_hop _ example_phased_wide_catalog_tables
                      (lookup_insert_eq (M := gmap string) ∅ "wide"
                         (example_phased_circuit "wide" (PI / 2)))
                      eq_refl)).
    + reflexivity.
  - exact (proj2 (single_hop_wrapped
                    example_transform example_epsilon example_canonical_matrix
                    example_rz_matrix example_catalog _ _
                    example_mismatched_first_hop _ example_catalog_tables
                    (lookup_insert_eq (M := gmap string) ∅ "CX"
                       (example_native_circuit "CX"))
                    eq_refl)).
Qed.

Lemma exhausted_hop_raises_NoBacksolution_witness :
  example_synthesis [example_first_hop; example_unrealizable_hop] example_catalog
  = Raise NoBacksolution.
Proof.
  apply (exhausted_hop_raises_NoBacksolution
           example_transform example_epsilon example_canonical_matrix example_rz_matrix
           example_catalog _ _ example_first_hop [] example_unrealizable_hop []
           _ _ example_catalog_tables (proj1 example_direct_run) eq_refl).
  apply Forall_forall. intros c _.
  apply combination_body_no_overlap.
  unfold hop_source, hop_target, example_unrealizable_hop. cbn [fst snd].
  rewrite example_transform_CX_point, example_transform_eighths.
  apply example_unrealizable_no_overlap.
Defined.


Lemma empty_path_yields_empty_circuit_witness :
  example_synthesis [] example_catalog = Return empty_circuit.
Proof.
  destruct example_catalog_tables as (Hc & Hx & _).
  apply (empty_path_yields_empty_circuit _ _ example_canonical_matrix example_rz_matrix
           _ _ Hc Hx).
Defined.

(** C7, as stated for every catalog, fails: a catalog with an entry that is
    not of XX type fails the assertion on the empty path. *)
Lemma empty_path_counterexample :
  example_synthesis [] [example_bad_operation] = Raise AssertionError.
Proof.
  apply (synthesis_assertion _ _ _ _ _ _ _ example_bad_table).
  apply (all_xx_type_lookup _ _ "bad" (1 / 4 * PI, 1 / 4 * PI, 1 / 4 * PI)).
  - apply lookup_insert_eq.
  - exact example_diagonal_not_xx_type.
Qed.

Lemma xx_assertion_precedes_path_witness :
  example_synthesis [example_first_hop] [example_bad_operation] = Raise AssertionError
  /\ example_synthesis [] [example_bad_operation] = Raise AssertionError.
Proof.
  apply (xx_assertion_precedes_path
           example_transform example_epsilon example_canonical_matrix example_rz_matrix
           [] example_bad_operation [] _ "bad" _ [example_first_hop]
           example_bad_table eq_refl example_bad_coordinate).
  - constructor.
  - exact example_diagonal_not_xx_type.
Defined.

(** C9, as stated for any entry, fails: an entry that is not of XX type but
    is followed by an XX entry of the same name is overwritten in the table
    before the assertion runs, and synthesis goes through. *)
Lemma xx_assertion_shadowed_counterexample :
  operation_coordinate example_transform
    (example_operation "CX" (1 # 4) (1 # 4) (1 # 4))
  = Return (1 / 4 * PI, 1 / 4 * PI, 1 / 4 * PI)
  /\ ~ xx_type example_epsilon (1 / 4 * PI, 1 / 4 * PI, 1 / 4 * PI)
  /\ example_synthesis [] example_shadowed_catalog = Return empty_circuit.
Proof.
  split; [exact example_bad_coordinate|].
  split; [exact example_diagonal_not_xx_type|].
  assert (Hc : build_coordinate_table example_transform example_shadowed_catalog ∅
               = Return (<["CX" := (1 / 4 * PI, 0, 0)]> ∅)).
  { replace (build_coordinate_table example_transform example_shadowed_catalog ∅)
      with (Return
              (<["CX" := example_transform (- - (1 # 4) / 1)%Q (- - (1 # 4) / 1)%Q
                           (- - (- 1 # 4) / 1)%Q]>
                 (<["CX" := example_transform (- - (1 # 4) / 1)%Q (- - (1 # 4) / 1)%Q
                              (- - (1 # 4) / 1)%Q]> (∅ : gmap string coord))))
      by reflexivity.
    rewrite insert_insert_eq, example_transform_CX. reflexivity. }
  assert (Hx : all_xx_type example_epsilon (<["CX" := (1 / 4 * PI, 0, 0)]> ∅) = true)
    by (apply all_xx_type_singleton; apply example_xx_type).
  apply (empty_path_with_tables _ _ example_canonical_matrix example_rz_matrix
           _ _ Hc Hx).
Qed.

Lemma NoBacksolution_only_on_exhaustion_witness :
  Forall (fun c =>
            combination_body example_canonical_matrix example_rz_matrix
              (<["CX" := (1 / 4 * PI, 0, 0)]> ∅)
              (hop_source example_transform example_unrealizable_hop)
              (hop_target example_transform example_unrealizable_hop) "CX" c
            = Return None) all_combinations.
Proof.
  apply (NoBacksolution_only_on_exhaustion
           example_transform example_canonical_matrix example_rz_matrix
           (<["CX" := (1 / 4 * PI, 0, 0)]> ∅) (<["CX" := example_native_circuit "CX"]> ∅)
           (mkState empty_circuit phase_one) example_unrealizable_hop).
  apply later_hop_exhausted.
  apply Forall_forall. intros c _.
  apply combination_body_no_overlap.
  unfold hop_source, hop_target, example_unrealizable_hop. cbn [fst snd].
  rewrite example_transform_CX_point, example_transform_eighths.
  apply example_unrealizable_no_overlap.
Defined.

Lemma running_phase_has_unit_magnitude_witness :
  exists st' : RunningState,
    later_hops example_transform example_canonical_matrix example_rz_matrix
      (<["CX" := (1 / 4 * PI, 0, 0)]> ∅) (<["CX" := example_native_circuit "CX"]> ∅)
      (mkState (compose empty_circuit (example_native_circuit "CX")) phase_one)
      [example_second_hop] = Return st'
    /\ phase_norm (st_phase st') = 1%Z.
Proof.
  destruct (example_second_hop_run
              (mkState (compose empty_circuit (example_native_circuit "CX")) phase_one))
    as [st' Hst'].
  exists st'. split; [exact Hst'|].
  apply (running_phase_has_unit_magnitude
           example_transform example_canonical_matrix example_rz_matrix
           _ _ example_first_hop [example_second_hop] _ st'
           (proj1 example_direct_run) Hst').
Defined.

(** *** Further runs on the concrete inputs *)

Lemma example_backsolve :
  exists r s x y,
    decompose_xxyy_into_xxyy_xx example_canonical_matrix example_rz_matrix
      (3 / 8 * PI) (1 / 8 * PI) (PI / 4) 0 (PI / 4)
    = (Some r, Some s, Some (1 / 2 * (1 / 2 * acos 0 + 1 / 2 * acos 1)),
       Some (1 / 2 * (1 / 2 * acos 0 - 1 / 2 * acos 1)), Some x, Some y).
Proof.
  apply decompose_defined.
  - replace (PI / 4 - 0) with (PI / 4) by lra.
    replace (3 / 8 * PI - 1 / 8 * PI) with (PI / 4) by lra.
    exact example_backsolve_difference.
  - replace (PI / 4 + 0) with (PI / 4) by lra.
    replace (3 / 8 * PI + 1 / 8 * PI) with (PI / 2) by lra.
    exact example_backsolve_sum.
Qed.

Lemma example_unrealizable_run :
  example_synthesis [example_first_hop; example_unrealizable_hop] example_catalog
  = Raise NoBacksolution.
Proof.
  unfold example_synthesis.
  rewrite (synthesis_with_tables _ _ _ _ _ _ _ _ example_catalog_tables).
  rewrite (proj1 example_direct_run). cbn [mbind result_bind later_hops].
  rewrite later_hop_exhausted; [reflexivity|].
  apply Forall_forall. intros c _.
  apply combination_body_no_overlap.
  unfold hop_source, hop_target, example_unrealizable_hop. cbn [fst snd].
  rewrite example_transform_CX_point, example_transform_eighths.
  apply example_unrealizable_no_overlap.
Qed.

(** The first of the two cheapest containers of the point is returned. *)
Lemma example_cheapest_container :
  cheapest_container example_polytope example_polytope_cost example_contains
    example_coverage_set example_point
  = Some ("one", (1 # 2)%Q, [1; 2]%nat).
Proof. reflexivity. Qed.

(** ** Witnesses of the further properties *)

Lemma decompose_angles_witness :
  exists r s u v x y,
    decompose_xxyy_into_xxyy_xx example_canonical_matrix example_rz_matrix
      (3 / 8 * PI) (1 / 8 * PI) (PI / 4) 0 (PI / 4)
    = (Some r, Some s, Some u, Some v, Some x, Some y)
    /\ 0 <= u <= PI / 2 /\ - (PI / 4) <= v <= PI / 4
    /\ r + s + x + y
       = np_angle (middle_matrix example_canonical_matrix example_rz_matrix
                     (PI / 4) 0 (PI / 4) u v 0 0)%nat.
Proof.
  destruct example_backsolve as (r & s & x & y & H).
  exists r, s, (1 / 2 * (1 / 2 * acos 0 + 1 / 2 * acos 1)),
    (1 / 2 * (1 / 2 * acos 0 - 1 / 2 * acos 1)), x, y.
  split; [exact H|].
  destruct (decompose_angles _ _ _ _ _ _ _ _ _ _ _ _ _ H)
    as ((_ & _ & Hu & Hv) & H0 & _).
  split; [exact Hu|]. split; [exact Hv|exact H0].
Defined.

Lemma search_saves_ascending_rotations_witness :
  exists sol,
    search_hop example_transform example_canonical_matrix example_rz_matrix
      (<["CX" := (1 / 4 * PI, 0, 0)]> ∅) example_second_hop = Return (Some sol)
    /\ In (permute_source_for_overlap sol) ascending_rotations
    /\ In (permute_target_for_overlap sol) ascending_rotations
    /\ ~ In (permute_source_for_overlap sol) descending_rotations.
Proof.
  destruct example_second_hop_search as [sol Hsol].
  exists sol. split; [exact Hsol|].
  destruct (search_saves_ascending_rotations _ _ _ _ _ _ Hsol)
    as ((Hs & Ht) & Hns & _).
  split; [exact Hs|]. split; [exact Ht|exact Hns].
Defined.

Lemma synthesis_error_kinds_witness :
  example_synthesis [example_first_hop; example_unrealizable_hop] example_catalog
  = Raise NoBacksolution
  /\ NoBacksolution <> ValueError.
Proof.
  split; [exact example_unrealizable_run|].
  exact (proj1 (synthesis_error_kinds
                  example_transform example_epsilon example_canonical_matrix
                  example_rz_matrix [example_first_hop; example_unrealizable_hop]
                  example_catalog NoBacksolution example_unrealizable_run)).
Defined.

Lemma catalog_tables_agree_witness :
  catalog_tables example_transform example_epsilon example_catalog
    (<["CX" := (1 / 4 * PI, 0, 0)]> ∅) (<["CX" := example_native_circuit "CX"]> ∅)
  /\ forall name,
       (<["CX" := (1 / 4 * PI, 0, 0)]> ∅ : gmap string coord) !! name = None
       <-> (<["CX" := example_native_circuit "CX"]> ∅ : gmap string QuantumCircuit)
             !! name = None.
Proof.
  split; [exact example_catalog_tables|].
  exact (proj1 (catalog_tables_agree _ _ _ _ _ example_catalog_tables)).
Defined.

Lemma known_labels_leave_NoBacksolution_witness :
  exists e,
    example_synthesis [example_first_hop; example_unrealizable_hop] example_catalog
    = Raise e
    /\ e = NoBacksolution
    /\ (2 <= length [example_first_hop; example_unrealizable_hop])%nat.
Proof.
  exists NoBacksolution. split; [exact example_unrealizable_run|].
  apply (known_labels_leave_NoBacksolution
           example_transform example_epsilon example_canonical_matrix example_rz_matrix
           [example_first_hop; example_unrealizable_hop] example_catalog _ _
           NoBacksolution example_catalog_tables).
  - repeat constructor.
  - exact example_unrealizable_run.
Defined.

Lemma missing_label_fails_lazily_witness :
  later_hop example_transform example_canonical_matrix example_rz_matrix
    ∅ ∅ (mkState empty_circuit phase_one) example_second_hop = Raise KeyError
  /\ later_hop example_transform example_canonical_matrix example_rz_matrix
       ∅ ∅ (mkState empty_circuit phase_one) example_unrealizable_hop
     = Raise NoBacksolution.
Proof.
  split.
  - destruct (missing_label_fails_lazily
                example_transform example_canonical_matrix example_rz_matrix
                ∅ ∅ (mkState empty_circuit phase_one) example_second_hop
                (lookup_empty _)) as [[H _]|[_ Hall]]; [exact H|].
    exfalso. apply Forall_cons in Hall as [H _]. revert H.
    unfold combination_overlap, hop_source, hop_target, example_second_hop.
    cbn [fst snd].
    rewrite example_transform_CX_point, example_transform_second_target.
    rewrite identity_symmetry, example_second_hop_overlap. discriminate.
  - destruct (missing_label_fails_lazily
                example_transform example_canonical_matrix example_rz_matrix
                ∅ ∅ (mkState empty_circuit phase_one) example_unrealizable_hop
                (lookup_empty _)) as [[_ Hex]|[H _]]; [|exact H].
    exfalso. apply Exists_exists in Hex as (c & _ & Hc). apply Hc.
    unfold combination_overlap, hop_source, hop_target, example_unrealizable_hop.
    cbn [fst snd].
    rewrite example_transform_CX_point, example_transform_eighths.
    apply example_unrealizable_no_overlap.
Defined.

Lemma native_circuits_interleaved_witness :
  exists out natives,
    example_synthesis [example_first_hop; example_second_hop] example_catalog = Return out
    /\ length natives = 2%nat
    /\ interleaved natives (data out).
Proof.
  destruct example_two_hop_run as [out Hout].
  destruct (native_circuits_interleaved
              example_transform example_epsilon example_canonical_matrix
              example_rz_matrix [example_first_hop; example_second_hop]
              example_catalog out Hout) as (natives & Hall & Hi).
  exists out, natives. split; [exact Hout|]. split; [|exact Hi].
  rewrite <- (Forall2_length _ _ _ Hall). reflexivity.
Defined.

Lemma global_phase_quarter_turns_witness :
  exists out (k : Z),
    example_synthesis [example_first_hop; example_second_hop] example_catalog = Return out
    /\ (-2 <= k <= 2)%Z
    /\ global_phase out = IZR k * (PI / 2).
Proof.
  destruct example_two_hop_run as [out Hout].
  destruct (global_phase_quarter_turns
              example_transform example_epsilon example_canonical_matrix
              example_rz_matrix [example_first_hop; example_second_hop]
              example_catalog out Hout) as ((k & Hk & Hp) & _).
  exists out, k. split; [exact Hout|]. split; [exact Hk|exact Hp].
Defined.
